(** * maze: a shallow embedding of [main.go] and its verified properties

    The development follows the source top to bottom: Go's [int], the parts
    of the standard [image] package the program calls, the grid and its
    region counter, the pseudo-random source, room placement, the
    growing-tree maze carver and the connector scan.  Run-time panics
    (slice index out of range, [rand.Intn] on a non-positive bound, [make]
    with a negative length) are modelled by [None]; the only unbounded loop,
    the one in [grow], runs on fuel and is proved to need only finitely
    much of it. *)

From Stdlib Require Import ZArith List Lia Bool Sorted.
From stdpp Require Import base tactics option list sorting.

Local Open Scope Z_scope.

(** ** Go's [int] *)

(** [int] is taken to be 64 bits wide (two's complement).  Every arithmetic
    operation of the program goes through [wrap]. *)
Module int.

Definition modulus : Z := 18446744073709551616.
Definition half : Z := 9223372036854775808.

Definition wrap (z : Z) : Z := (z + half) mod modulus - half.

Definition add (a b : Z) : Z := wrap (a + b).
Definition sub (a b : Z) : Z := wrap (a - b).
Definition mul (a b : Z) : Z := wrap (a * b).
(** Go's [/] truncates toward zero. *)
Definition div (a b : Z) : Z := wrap (Z.quot a b).

Definition inRange (z : Z) : Prop := - half <= z < half.

End int.

(** ** The [image] package: points and rectangles

    [Point], [Rectangle], [Rect], [Add], [Mul], [In], [Empty], [Overlaps]
    and [Dx]/[Dy] are Go's standard library; they are transcribed from the
    library's definitions. *)
Module image.

Record Point := mkPoint { X : Z; Y : Z }.

Record Rectangle := mkRectangle { Min : Point; Max : Point }.

Definition Pt (x y : Z) : Point := mkPoint x y.

(** The zero value of a rectangle, as [make] produces it. *)
Definition ZR : Rectangle := mkRectangle (mkPoint 0 0) (mkPoint 0 0).

Definition Point_Add (p q : Point) : Point :=
  mkPoint (int.add (X p) (X q)) (int.add (Y p) (Y q)).

Definition Point_Mul (p : Point) (k : Z) : Point :=
  mkPoint (int.mul (X p) k) (int.mul (Y p) k).

Definition Point_In (p : Point) (r : Rectangle) : bool :=
  (X (Min r) <=? X p) && (X p <? X (Max r)) &&
  (Y (Min r) <=? Y p) && (Y p <? Y (Max r)).

(** [Rect] swaps its arguments where needed so that the result is
    well-formed. *)
Definition Rect (x0 y0 x1 y1 : Z) : Rectangle :=
  let '(x0, x1) := if x1 <? x0 then (x1, x0) else (x0, x1) in
  let '(y0, y1) := if y1 <? y0 then (y1, y0) else (y0, y1) in
  mkRectangle (mkPoint x0 y0) (mkPoint x1 y1).

Definition Dx (r : Rectangle) : Z := int.sub (X (Max r)) (X (Min r)).
Definition Dy (r : Rectangle) : Z := int.sub (Y (Max r)) (Y (Min r)).

Definition Empty (r : Rectangle) : bool :=
  (X (Max r) <=? X (Min r)) || (Y (Max r) <=? Y (Min r)).

Definition Overlaps (r s : Rectangle) : bool :=
  negb (Empty r) && negb (Empty s) &&
  (X (Min r) <? X (Max s)) && (X (Min s) <? X (Max r)) &&
  (Y (Min r) <? Y (Max s)) && (Y (Min s) <? Y (Max r)).

(** An empty rectangle is inside every rectangle. *)
Definition Rectangle_In (r s : Rectangle) : bool :=
  if Empty r then true
  else (X (Min s) <=? X (Min r)) && (X (Max r) <=? X (Max s)) &&
       (Y (Min s) <=? Y (Min r)) && (Y (Max r) <=? Y (Max s)).

End image.

(** ** Slices *)

(** [s[i]]: panics unless [0 <= i < len(s)]. *)
Definition index {A} (s : list A) (i : Z) : option A :=
  if (0 <=? i) && (i <? Z.of_nat (length s)) then s !! Z.to_nat i else None.

(** [s[i] = v]: same check; the slice is updated in place. *)
Definition store {A} (s : list A) (i : Z) (v : A) : option (list A) :=
  if (0 <=? i) && (i <? Z.of_nat (length s))
  then Some (<[Z.to_nat i := v]> s) else None.

(** The values a counter takes in [for i := lo; i < hi; i += step], for a
    positive [step].  In each loop of the program the counter stays below
    a bound that leaves room for the last increment, so no wrap-around
    occurs in the counter itself. *)
Fixpoint count (lo step : Z) (n : nat) : list Z :=
  match n with
  | O => []
  | S n => lo :: count (lo + step) step n
  end.

Definition forRange (lo hi step : Z) : list Z :=
  count lo step (Z.to_nat ((hi - lo + step - 1) / step)).

(** A loop body run over a list of counter values, threading a state and
    stopping at the first panic. *)
Fixpoint forEach {A S} (l : list A) (body : A -> S -> option S) (s : S)
  : option S :=
  match l with
  | [] => Some s
  | a :: l => match body a s with
              | Some s' => forEach l body s'
              | None => None
              end
  end.

(** ** Materials, regions, the grid *)

Inductive Material := Rock | Carved.

Definition Material_eqb (a b : Material) : bool :=
  match a, b with
  | Rock, Rock | Carved, Carved => true
  | _, _ => false
  end.

Definition Region := Z.

(** The program's own [Point] only embeds [image.Point]. *)
Abbreviation Point := image.Point.
Abbreviation Pt := image.Pt.

Record Grid := mkGrid {
  g : list Material;
  Size : Point;
  regions : list Region;
  regCount : Region
}.

Definition Regions (grid : Grid) : list Region :=
  forRange 0 (regCount grid) 1.

Definition NewRegion (grid : Grid) : Region * Grid :=
  let n := int.add (regCount grid) 1 in
  (n, mkGrid (g grid) (Size grid) (regions grid) n).

Definition Bounds (grid : Grid) : image.Rectangle :=
  image.Rect 0 0 (image.X (Size grid)) (image.Y (Size grid)).

(** The linear index [p.Y*g.Size.X + p.X]. *)
Definition offset (grid : Grid) (p : Point) : Z :=
  int.add (int.mul (image.Y p) (image.X (Size grid))) (image.X p).

Definition At (grid : Grid) (p : Point) : option Material :=
  index (g grid) (offset grid p).

Definition RegionAt (grid : Grid) (p : Point) : option Region :=
  index (regions grid) (offset grid p).

Definition SetMaterial (grid : Grid) (p : Point) (m : Material)
  : option Grid :=
  cells ← store (g grid) (offset grid p) m;
  Some (mkGrid cells (Size grid) (regions grid) (regCount grid)).

Definition SetRegion (grid : Grid) (p : Point) (r : Region) : option Grid :=
  regs ← store (regions grid) (offset grid p) r;
  Some (mkGrid (g grid) (Size grid) regs (regCount grid)).

(** [make] panics on a negative length. *)
Definition newGrid (size : Point) : option Grid :=
  let n := int.mul (image.X size) (image.Y size) in
  if n <? 0 then None
  else Some (mkGrid (replicate (Z.to_nat n) Rock) size
                    (replicate (Z.to_nat n) 0) 0).

(** ** Directions *)

(** [direction] wraps a pointer to a point that is never written to, so it
    is modelled by the point's value. *)
Record direction := mkDirection { dpoint : Point }.

Definition Add (p o : Point) : Point := image.Point_Add p o.

Definition AddDir (p : Point) (d : direction) : Point := Add p (dpoint d).

Definition Mul (p : Point) (i : Z) : Point := image.Point_Mul p i.

Definition Reverse (d : direction) : direction :=
  mkDirection (Mul (dpoint d) (-1)).

Definition D (x y : Z) : direction := mkDirection (Pt x y).

Definition Up : direction := D 0 (-1).
Definition Right : direction := D 1 0.
Definition Down : direction := D 0 1.
Definition Left : direction := D (-1) 0.

Definition Dirs : list direction := [Up; Right; Down; Left].

(** ** The pseudo-random source

    [math/rand]'s generator is a hidden global.  Its successive raw outputs
    are an arbitrary sequence [draws]; [Intn n] reduces the next one into
    [[0, n)] and panics when [n <= 0].  Every value of [[0, n)] is the
    outcome for some sequence. *)
Record Rand := mkRand { draws : nat -> Z; pos : nat }.

Definition Intn (n : Z) (r : Rand) : option (Z * Rand) :=
  if n <=? 0 then None
  else Some (draws r (pos r) mod n, mkRand (draws r) (S (pos r))).

(** ** Room placement *)

Definition IMG_SIZE : Z := 61.
Definition ROOM_TRIES : Z := 10.

Record RoomParams := mkRoomParams { Min : Point; Max : Point }.

Definition ROOM_PARAMS : RoomParams := mkRoomParams (Pt 5 5) (Pt 15 15).

(** The four draws of one trial of [createRooms], in the order the source
    makes them: [y], [x], [height], [width]. *)
Definition drawRoom (clip : image.Rectangle) (rp : RoomParams) (r : Rand)
  : option (Z * Z * Z * Z * Rand) :=
  '(k, r) ← Intn (int.div (image.X (image.Max clip)) 2) r;
  let y := int.add (int.mul k 2) 1 in
  '(k, r) ← Intn (int.div (image.Y (image.Max clip)) 2) r;
  let x := int.add (int.mul k 2) 1 in
  '(k, r) ← Intn (int.div (image.Y (Max rp)) 2) r;
  let height := int.add (int.mul k 2) (image.Y (Min rp)) in
  '(k, r) ← Intn (int.div (image.X (Max rp)) 2) r;
  let width := int.add (int.mul k 2) (image.X (Min rp)) in
  Some (y, x, height, width, r).

(** One trial: the body of the [TryingRooms] loop.  Both [continue]s leave
    the list as it is. *)
Definition tryRoom (clip : image.Rectangle) (rp : RoomParams)
    (st : list image.Rectangle * Rand) : option (list image.Rectangle * Rand) :=
  let '(rooms, r) := st in
  '(y, x, height, width, r) ← drawRoom clip rp r;
  let room := image.Rect x y (int.add x width) (int.add y height) in
  if negb (image.Rectangle_In room clip) then Some (rooms, r)
  else if existsb (fun old => image.Overlaps room old) rooms
       then Some (rooms, r)
       else Some (rooms ++ [room], r).

(** [make([]image.Rectangle, 1)] is a slice holding one zero rectangle. *)
Definition createRooms (clip : image.Rectangle) (rp : RoomParams) (r : Rand)
  : option (list image.Rectangle * Rand) :=
  let rooms := replicate 1 image.ZR in
  forEach (forRange 0 ROOM_TRIES 1) (fun _ st => tryRoom clip rp st)
          (rooms, r).

(** ** The maze carver *)

Definition canCarve (grid : Grid) (from : Point) (dir : direction)
  : option bool :=
  let beyond := AddDir (AddDir (AddDir from dir) dir) dir in
  let next := AddDir (AddDir from dir) dir in
  if image.Point_In beyond (Bounds grid)
  then m ← At grid next; Some (Material_eqb m Rock)
  else Some false.

(** The inner loop of [grow] that collects the carvable directions. *)
Definition carvable (grid : Grid) (cell : Point) : option (list direction) :=
  forEach Dirs
    (fun d unmade =>
       ok ← canCarve grid cell d;
       Some (if (ok : bool) then unmade ++ [d] else unmade))
    [].

(** One iteration of the [for len(cells) > 0] loop of [grow].  The counter
    [i] of the source is never read and is left out. *)
Definition grow_iter (region : Region) (st : Grid * list Point * Rand)
  : option (Grid * list Point * Rand) :=
  let '(grid, cells, r) := st in
  '(k, r) ← Intn (Z.of_nat (length cells)) r;
  cell ← index cells k;
  unmade ← carvable grid cell;
  if 0 <? Z.of_nat (length unmade) then
    '(j, r) ← Intn (Z.of_nat (length unmade)) r;
    dir ← index unmade j;
    grid ← SetMaterial grid (AddDir cell dir) Carved;
    grid ← SetRegion grid (AddDir cell dir) region;
    grid ← SetMaterial grid (AddDir (AddDir cell dir) dir) Carved;
    grid ← SetRegion grid (AddDir (AddDir cell dir) dir) region;
    Some (grid, cells ++ [AddDir (AddDir cell dir) dir], r)
  else
    Some (grid, drop 1 cells, r).

(** Outcome of a computation that contains the unbounded loop. *)
Inductive result (A : Type) :=
  | Done (a : A)
  | Panic
  | OutOfFuel.
Arguments Done {A} a.
Arguments Panic {A}.
Arguments OutOfFuel {A}.

Fixpoint grow_loop (fuel : nat) (region : Region)
    (st : Grid * list Point * Rand) : result (Grid * Rand) :=
  match st with
  | (grid, [], r) => Done (grid, r)
  | (_, _ :: _, _) =>
      match fuel with
      | O => OutOfFuel
      | S fuel =>
          match grow_iter region st with
          | Some st' => grow_loop fuel region st'
          | None => Panic
          end
      end
  end.

Definition grow (fuel : nat) (grid : Grid) (from : Point) (region : Region)
    (r : Rand) : result (Grid * Rand) :=
  let cells := [] in
  let cells := cells ++ [from] in
  grow_loop fuel region (grid, cells, r).

Fixpoint forEachR {A S} (l : list A) (body : A -> S -> result S) (s : S)
  : result S :=
  match l with
  | [] => Done s
  | a :: l => match body a s with
              | Done s' => forEachR l body s'
              | Panic => Panic
              | OutOfFuel => OutOfFuel
              end
  end.

(** The two nested loops of [growMaze], over whatever one pass does to the
    state [W]. *)
Definition growMazeLoops {W} (pass : Point -> W -> result W)
    (bounds : image.Rectangle) (w : W) : result W :=
  forEachR (forRange (int.add (image.Y (image.Min bounds)) 1)
                     (image.Y (image.Max bounds)) 2)
    (fun y w =>
       forEachR (forRange (int.add (image.X (image.Min bounds)) 1)
                          (image.X (image.Max bounds)) 2)
         (fun x w => pass (Pt x y) w) w)
    w.

Definition growMaze (fuel : nat) (grid : Grid) (r : Rand)
  : result (Grid * Rand) :=
  let bounds := Bounds grid in
  let '(region, grid) := NewRegion grid in
  growMazeLoops (fun p '(grid, r) => grow fuel grid p region r)
                bounds (grid, r).

(** [growMaze] with a record of its calls to [grow]: each entry is the seed
    of a pass and the material found there when the pass starts. *)
Definition growMazeTraced (fuel : nat) (grid : Grid) (r : Rand)
  : result (Grid * Rand * list (Point * option Material)) :=
  let bounds := Bounds grid in
  let '(region, grid) := NewRegion grid in
  growMazeLoops
    (fun p '(grid, r, calls) =>
       match grow fuel grid p region r with
       | Done (grid', r') => Done (grid', r', calls ++ [(p, At grid p)])
       | Panic => Panic
       | OutOfFuel => OutOfFuel
       end)
    bounds (grid, r, []).

(** ** Connectors *)

Record conn := mkConn { dir : direction; region : Region }.

Record connector := mkConnector { a : conn; b : conn; loc : Point }.

(** The body of the loop over [Dirs] in [findConnectors].  Both regions are
    read before the materials are tested; [||] does not evaluate its second
    operand when the first holds. *)
Definition connectorStep (grid : Grid) (here : Point) (d : direction)
    (conns : list connector) : option (list connector) :=
  let theOtherWay := Reverse d in
  let pa := AddDir here d in
  let pb := AddDir here theOtherWay in
  ra ← RegionAt grid pa;
  rb ← RegionAt grid pb;
  ma ← At grid pa;
  if Material_eqb ma Rock then Some conns
  else
    mb ← At grid pb;
    if Material_eqb mb Rock then Some conns
    else if negb (ra =? rb)
         then Some (conns ++
                      [mkConnector (mkConn d ra) (mkConn theOtherWay rb) here])
         else Some conns.

(** The body of the scan of [findConnectors] at the cell [here]. *)
Definition connectorsAt (grid : Grid) (here : Point) (conns : list connector)
  : option (list connector) :=
  mat ← At grid here;
  if negb (Material_eqb mat Rock) then Some conns
  else forEach Dirs (connectorStep grid here) conns.

Definition findConnectors (grid : Grid) : option (list connector) :=
  let bounds := Bounds grid in
  let conns := [] in
  forEach (forRange (int.add (image.Y (image.Min bounds)) 2)
                    (int.sub (image.Y (image.Max bounds)) 2) 1)
    (fun y conns =>
       forEach (forRange (int.add (image.X (image.Min bounds)) 2)
                         (int.sub (image.X (image.Max bounds)) 2) 1)
         (fun x conns => connectorsAt grid (Pt x y) conns) conns)
    conns.

(** ** The rest of the pipeline *)

(** The body of the loop over [rooms] in [build]: the rectangle takes a
    new region id, then each of its cells is carved and labelled. *)
Definition carveRoom (room : image.Rectangle) (grid : Grid) : option Grid :=
  let '(reg, grid) := NewRegion grid in
  forEach (forRange (image.Y (image.Min room)) (image.Y (image.Max room)) 1)
    (fun y grid =>
       forEach (forRange (image.X (image.Min room))
                         (image.X (image.Max room)) 1)
         (fun x grid =>
            grid ← SetMaterial grid (Pt x y) Carved;
            SetRegion grid (Pt x y) reg)
         grid)
    grid.

(** [build] up to the point where the grid and the connectors are handed to
    the image writer; writing the file is left out. *)
Definition build (fuel : nat) (r : Rand)
  : result (Grid * list connector * Rand) :=
  match newGrid (Pt IMG_SIZE IMG_SIZE) with
  | None => Panic
  | Some grid =>
      match createRooms (Bounds grid) ROOM_PARAMS r with
      | None => Panic
      | Some (rooms, r) =>
          match forEach rooms carveRoom grid with
          | None => Panic
          | Some grid =>
              match growMaze fuel grid r with
              | Done (grid, r) =>
                  match findConnectors grid with
                  | Some conns => Done (grid, conns, r)
                  | None => Panic
                  end
              | Panic => Panic
              | OutOfFuel => OutOfFuel
              end
          end
      end
  end.

(** [joinSomeRegions] returns nothing and leaves after one round; the model
    returns the region [mr] picked and the connectors [mcs] collected for
    it, to have them at hand. *)
Definition joinSomeRegions (grid : Grid) (r : Rand)
  : option (Region * list connector * Rand) :=
  let regs := Regions grid in
  connectors ← findConnectors grid;
  '(k, r) ← Intn (Z.of_nat (length regs)) r;
  mr ← index regs k;
  let mcs :=
    List.filter (fun c => (region (a c) =? mr) || (region (b c) =? mr))
                connectors in
  Some (mr, mcs, r).

(** ** Vocabulary of the statements *)

Global Instance Point_eq_dec : EqDecision Point.
Proof. solve_decision. Defined.

Global Instance Material_eq_dec : EqDecision Material.
Proof. solve_decision. Defined.

Global Instance direction_eq_dec : EqDecision direction.
Proof. solve_decision. Defined.

(** A slice of 8-byte elements cannot hold [2^60] of them. *)
Definition maxLen : Z := 1152921504606846976.

(** A grid as [newGrid] builds it and the setters keep it: both slices
    hold [width * height] cells. *)
Record wf (grid : Grid) : Prop := mkWf {
  wf_X : 0 <= image.X (Size grid);
  wf_Y : 0 <= image.Y (Size grid);
  wf_g : Z.of_nat (length (g grid)) = image.X (Size grid) * image.Y (Size grid);
  wf_regions :
    Z.of_nat (length (regions grid)) = image.X (Size grid) * image.Y (Size grid);
  wf_len : image.X (Size grid) * image.Y (Size grid) < maxLen
}.

Definition inBounds (grid : Grid) (p : Point) : Prop :=
  image.Point_In p (Bounds grid) = true.

(** Number of Rock cells of a grid. *)
Definition rocks (grid : Grid) : nat :=
  length (filter (fun m => m = Rock) (g grid)).

(** [n] successive calls of [NewRegion]: the ids handed out, in order, and
    the grid afterwards. *)
Fixpoint newRegions (n : nat) (grid : Grid) : list Region * Grid :=
  match n with
  | O => ([], grid)
  | S n => let '(id, grid) := NewRegion grid in
           let '(ids, grid) := newRegions n grid in
           (id :: ids, grid)
  end.

(** Row-major order on points: by row, then by column. *)
Definition rowMajorLt (p q : Point) : Prop :=
  image.Y p < image.Y q \/ (image.Y p = image.Y q /\ image.X p < image.X q).

(** The same connector read from its other side. *)
Definition mirror (c : connector) : connector :=
  mkConnector (b c) (a c) (loc c).

(** The records of a connector list that sit at the cell [p]. *)
Definition recordsAt (p : Point) (conns : list connector) : list connector :=
  filter (fun c => loc c = p) conns.

(** The seeds of [growMaze] and the cells scanned by [findConnectors], in
    the order the nested loops reach them. *)
Definition lattice (bounds : image.Rectangle) : list Point :=
  y ← forRange (int.add (image.Y (image.Min bounds)) 1)
               (image.Y (image.Max bounds)) 2;
  x ← forRange (int.add (image.X (image.Min bounds)) 1)
               (image.X (image.Max bounds)) 2;
  [Pt x y].

Definition scan (bounds : image.Rectangle) : list Point :=
  y ← forRange (int.add (image.Y (image.Min bounds)) 2)
               (int.sub (image.Y (image.Max bounds)) 2) 1;
  x ← forRange (int.add (image.X (image.Min bounds)) 2)
               (int.sub (image.X (image.Max bounds)) 2) 1;
  [Pt x y].

(** What one direction contributes at a cell, as a function of the grid. *)
Definition emitted (grid : Grid) (here : Point) (d : direction)
  : list connector :=
  match RegionAt grid (AddDir here d), RegionAt grid (AddDir here (Reverse d)),
        At grid (AddDir here d), At grid (AddDir here (Reverse d)) with
  | Some ra, Some rb, Some Carved, Some Carved =>
      if ra =? rb then []
      else [mkConnector (mkConn d ra) (mkConn (Reverse d) rb) here]
  | _, _, _, _ => []
  end.

Definition cellRecords (grid : Grid) (here : Point) : list connector :=
  match At grid here with
  | Some Rock => d ← Dirs; emitted grid here d
  | _ => []
  end.

(** The state of the loop of [grow] between two iterations. *)
Definition growInv (grid : Grid) (cells : list Point) : Prop :=
  wf grid /\ Forall (inBounds grid) cells.

(** A kept room: inside the clip rectangle, with the parity of the
    minimum size. *)
Definition roomValid (clip : image.Rectangle) (rp : RoomParams)
    (room : image.Rectangle) : Prop :=
  image.X (image.Min clip) <= image.X (image.Min room) /\
  image.X (image.Max room) <= image.X (image.Max clip) /\
  image.Y (image.Min clip) <= image.Y (image.Min room) /\
  image.Y (image.Max room) <= image.Y (image.Max clip) /\
  Z.odd (image.Dx room) = Z.odd (image.X (Min rp)) /\
  Z.odd (image.Dy room) = Z.odd (image.Y (Min rp)).

Definition noOverlaps (rooms : list image.Rectangle) : Prop :=
  forall i j ri rj,
    i <> j -> rooms !! i = Some ri -> rooms !! j = Some rj ->
    image.Overlaps ri rj = false.

(** Between [grid] and [grid'] nothing happened but cells being carved and
    given the region [reg]: slice by slice, an entry is as before or is
    Carved with region [reg]. *)
Definition carvedOnly (reg : Region) (grid grid' : Grid) : Prop :=
  Size grid' = Size grid /\
  regCount grid' = regCount grid /\
  length (g grid') = length (g grid) /\
  length (regions grid') = length (regions grid) /\
  forall i : nat,
    (g grid' !! i = g grid !! i /\ regions grid' !! i = regions grid !! i) \/
    (g grid' !! i = Some Carved /\ regions grid' !! i = Some reg).

(** A value that fits Go's [int]. *)
Definition isInt (z : Z) : Prop := - int.half <= z < int.half.

(** ** Arithmetic of [int] *)

Lemma wrap_small z : - int.half <= z < int.half -> int.wrap z = z.
Proof.
  intros Hz. unfold int.wrap, int.half, int.modulus in *.
  rewrite Z.mod_small; lia.
Qed.

Lemma wrap_range z : - int.half <= int.wrap z < int.half.
Proof.
  unfold int.wrap, int.half, int.modulus.
  pose proof (Z.mod_pos_bound (z + 9223372036854775808) 18446744073709551616).
  lia.
Qed.

Lemma wrap_odd z : Z.odd (int.wrap z) = Z.odd z.
Proof.
  unfold int.wrap, int.half, int.modulus.
  rewrite Z.mod_eq by lia.
  replace (z + 9223372036854775808
           - 18446744073709551616
             * ((z + 9223372036854775808) / 18446744073709551616)
           - 9223372036854775808)
    with (z + 2 * (- (9223372036854775808
                      * ((z + 9223372036854775808) / 18446744073709551616))))
    by lia.
  apply Z.odd_add_mul_2.
Qed.

Ltac unwrap :=
  unfold int.add, int.sub, int.mul, int.div in *;
  repeat match goal with
    | |- context [int.wrap ?z] =>
        rewrite (wrap_small z) by (unfold int.half; lia)
    | H : context [int.wrap ?z] |- _ =>
        rewrite (wrap_small z) in H by (unfold int.half; lia)
    end.

(** ** Loops over counters *)

Lemma elem_of_count lo step n x :
  x ∈ count lo step n <-> exists k : nat, (k < n)%nat /\ x = lo + Z.of_nat k * step.
Proof.
  revert lo. induction n as [|n IH]; intros lo; simpl.
  - split; [intros H; inversion H | intros (k & Hk & _); lia].
  - rewrite elem_of_cons, IH. split.
    + intros [-> | (k & Hk & ->)].
      * exists 0%nat. split; lia.
      * exists (S k). split; lia.
    + intros (k & Hk & ->). destruct k as [|k].
      * left. lia.
      * right. exists k. split; lia.
Qed.

Lemma elem_of_forRange lo hi step x :
  0 < step ->
  x ∈ forRange lo hi step <-> lo <= x < hi /\ (x - lo) mod step = 0.
Proof.
  intros Hstep. unfold forRange. rewrite elem_of_count. split.
  - intros (k & Hk & ->).
    assert (0 < (hi - lo + step - 1) / step) as Hpos by lia.
    assert (Z.of_nat k < (hi - lo + step - 1) / step) as Hk' by lia.
    assert (Z.of_nat k + 1 <= (hi - lo + step - 1) / step) as Hk'' by lia.
    pose proof (Z.mul_div_le (hi - lo + step - 1) step Hstep) as Hle.
    replace (lo + Z.of_nat k * step - lo) with (Z.of_nat k * step) by lia.
    rewrite Z.mod_mul by lia. split; [|done].
    assert ((Z.of_nat k + 1) * step
            <= step * ((hi - lo + step - 1) / step)) by nia.
    nia.
  - intros [Hx Hmod].
    apply Z.mod_divide in Hmod; [|lia]. destruct Hmod as [q Hq].
    assert (0 <= q) as Hq0 by nia.
    assert (q + 1 <= (hi - lo + step - 1) / step) as Hdiv
      by (apply Z.div_le_lower_bound; nia).
    exists (Z.to_nat q). split; lia.
Qed.

Lemma count_sorted lo step n :
  0 < step -> StronglySorted Z.lt (count lo step n).
Proof.
  intros Hstep. revert lo. induction n as [|n IH]; intros lo; simpl.
  - constructor.
  - constructor; [apply IH|].
    apply Forall_forall. intros x Hx.
    apply elem_of_count in Hx as (k & _ & ->). nia.
Qed.

Lemma forRange_unit lo hi :
  forRange lo hi 1 = count lo 1 (Z.to_nat (hi - lo)).
Proof.
  unfold forRange. f_equal. f_equal. rewrite Z.div_1_r. lia.
Qed.

Lemma count_unit_seq lo n :
  count lo 1 n = (fun k => lo + Z.of_nat k) <$> seq 0 n.
Proof.
  revert lo. induction n as [|n IH]; intros lo; simpl; [done|].
  f_equal; [lia|]. rewrite IH, <- seq_shift, <- list_fmap_compose.
  apply list_fmap_ext. intros _ k _. simpl. lia.
Qed.

(** ** Slices and the grid accessors *)

Lemma index_None {A} (s : list A) i :
  index s i = None <-> ~ (0 <= i < Z.of_nat (length s)).
Proof.
  unfold index.
  destruct (Z.leb_spec 0 i), (Z.ltb_spec i (Z.of_nat (length s))); simpl;
    try (split; [intros _; lia | done]).
  split; [|lia]. intros Hn. apply lookup_ge_None in Hn. lia.
Qed.

Lemma index_Some {A} (s : list A) i x :
  index s i = Some x <-> 0 <= i /\ s !! Z.to_nat i = Some x.
Proof.
  unfold index.
  destruct (Z.leb_spec 0 i), (Z.ltb_spec i (Z.of_nat (length s))); simpl;
    try (split; [done | intros [? ?]; lia]).
  - tauto.
  - split; [done|]. intros [_ Hx]. apply lookup_lt_Some in Hx. lia.
Qed.

Lemma store_None {A} (s : list A) i v :
  store s i v = None <-> ~ (0 <= i < Z.of_nat (length s)).
Proof.
  unfold store.
  destruct (Z.leb_spec 0 i), (Z.ltb_spec i (Z.of_nat (length s))); simpl;
    split; (done || lia).
Qed.

Lemma store_Some {A} (s s' : list A) i v :
  store s i v = Some s' <->
  0 <= i < Z.of_nat (length s) /\ s' = <[Z.to_nat i := v]> s.
Proof.
  unfold store.
  destruct (Z.leb_spec 0 i), (Z.ltb_spec i (Z.of_nat (length s))); simpl;
    try (split; [done | intros [? ?]; lia]).
  split; [intros [= <-]; split; [lia | done] | intros [_ ->]; done].
Qed.

Lemma inBounds_iff grid p :
  wf grid ->
  inBounds grid p <->
  0 <= image.X p < image.X (Size grid) /\ 0 <= image.Y p < image.Y (Size grid).
Proof.
  intros [HX HY _ _ _]. unfold inBounds, image.Point_In, Bounds, image.Rect.
  destruct (Z.ltb_spec (image.X (Size grid)) 0); [lia|].
  destruct (Z.ltb_spec (image.Y (Size grid)) 0); [lia|].
  simpl. rewrite !andb_true_iff. lia.
Qed.

Lemma offset_inBounds grid p :
  wf grid -> inBounds grid p ->
  offset grid p = image.Y p * image.X (Size grid) + image.X p /\
  0 <= offset grid p < image.X (Size grid) * image.Y (Size grid).
Proof.
  intros Hwf Hp. apply inBounds_iff in Hp; [|done].
  destruct Hwf as [HX HY _ _ Hlen]. unfold maxLen in Hlen.
  assert (0 <= image.Y p * image.X (Size grid) + image.X p
          < image.X (Size grid) * image.Y (Size grid)) by nia.
  assert (0 <= image.Y p * image.X (Size grid)) by nia.
  unfold offset. unwrap. done.
Qed.

(** Distinct cells inside the bounds have distinct linear indices. *)
Lemma offset_inj grid p q :
  wf grid -> inBounds grid p -> inBounds grid q ->
  offset grid p = offset grid q -> p = q.
Proof.
  intros Hwf Hp Hq.
  destruct (offset_inBounds grid p Hwf Hp) as [-> _].
  destruct (offset_inBounds grid q Hwf Hq) as [-> _].
  apply inBounds_iff in Hp, Hq; try done.
  destruct p as [px py], q as [qx qy]; simpl in *. intros Heq.
  assert (py = qy) by nia. subst. f_equal. lia.
Qed.

Lemma newGrid_wf size grid :
  0 <= image.X size -> 0 <= image.Y size ->
  image.X size * image.Y size < maxLen ->
  newGrid size = Some grid -> wf grid.
Proof.
  intros HX HY Hlen. unfold newGrid, maxLen in *.
  assert (0 <= image.X size * image.Y size) by nia.
  unwrap. destruct (Z.ltb_spec (image.X size * image.Y size) 0); [lia|].
  intros [= <-]. split; simpl; rewrite ?length_replicate; unfold maxLen; lia.
Qed.

(** ** Region ids (C1) *)

Lemma newRegions_spec n grid ids grid' :
  0 <= regCount grid -> regCount grid + Z.of_nat n < int.half ->
  newRegions n grid = (ids, grid') ->
  ids = (fun k => regCount grid + 1 + Z.of_nat k) <$> seq 0 n /\
  regCount grid' = regCount grid + Z.of_nat n.
Proof.
  revert grid ids grid'. induction n as [|n IH]; intros grid ids grid' H0 Hn.
  - simpl. intros [= <- <-]. split; [done | lia].
  - simpl. destruct (newRegions n _) as [ids1 grid1] eqn:Hrec.
    intros [= <- <-]. unfold int.half in *.
    apply IH in Hrec as [-> ->]; simpl; unwrap; try lia.
    split; [|lia]. f_equal; [lia|].
    rewrite <- seq_shift, <- list_fmap_compose.
    apply list_fmap_ext. intros _ k _. simpl. lia.
Qed.

(** C1 (the code departs from the claim).  On a fresh grid, [n] calls of
    [NewRegion] hand out the ids [1, ..., n], but [Regions] then lists
    [0, ..., n-1]: the sentinel [0] is in, the last id is missing. *)
Theorem Regions_after_NewRegion size grid n ids grid' :
  newGrid size = Some grid ->
  Z.of_nat n < int.half ->
  newRegions n grid = (ids, grid') ->
  ids = Z.of_nat <$> seq 1 n /\ Regions grid' = Z.of_nat <$> seq 0 n.
Proof.
  intros Hnew Hn Hcalls.
  assert (regCount grid = 0) as H0.
  { unfold newGrid in Hnew. destruct (_ <? 0); [done|]. by injection Hnew as <-. }
  apply newRegions_spec in Hcalls as [-> Hcount]; rewrite H0 in *; try lia.
  split.
  - rewrite <- seq_shift, <- list_fmap_compose.
    apply list_fmap_ext. intros _ k _. simpl. lia.
  - unfold Regions. rewrite Hcount, forRange_unit, count_unit_seq.
    replace (Z.to_nat (0 + Z.of_nat n - 0)) with n by lia.
    apply list_fmap_ext. intros _ k _. simpl. lia.
Qed.

Lemma Regions_after_NewRegion_witness :
  exists grid grid',
    newGrid (Pt 3 3) = Some grid /\
    newRegions 1 grid = ([1], grid') /\ Regions grid' = [0].
Proof.
  eexists _, _. split; [reflexivity|]. split; [reflexivity|].
  eapply (Regions_after_NewRegion (Pt 3 3) _ 1); [reflexivity | | reflexivity].
  unfold int.half. lia.
Defined.

(** ** Index checks (C5) *)

(** C5 (amended).  The four accessors fail exactly when the linear index
    [y*width + x] falls outside the backing slice; the point itself is not
    checked against the bounds.  On a well-formed grid a point whose linear
    index [i] is inside the slice is served as the in-bounds cell
    [(i mod width, i / width)], whatever its own coordinates are. *)
Theorem access_fails_iff_offset_out_of_range grid p m reg :
  (At grid p = None <->
     ~ (0 <= offset grid p < Z.of_nat (length (g grid)))) /\
  (RegionAt grid p = None <->
     ~ (0 <= offset grid p < Z.of_nat (length (regions grid)))) /\
  (SetMaterial grid p m = None <->
     ~ (0 <= offset grid p < Z.of_nat (length (g grid)))) /\
  (SetRegion grid p reg = None <->
     ~ (0 <= offset grid p < Z.of_nat (length (regions grid)))) /\
  (wf grid ->
   0 <= offset grid p < image.X (Size grid) * image.Y (Size grid) ->
   let q := Pt (offset grid p mod image.X (Size grid))
               (offset grid p / image.X (Size grid)) in
   inBounds grid q /\
   At grid p = At grid q /\ RegionAt grid p = RegionAt grid q /\
   SetMaterial grid p m = SetMaterial grid q m /\
   SetRegion grid p reg = SetRegion grid q reg).
Proof.
  split; [apply index_None|]. split; [apply index_None|].
  split.
  { unfold SetMaterial. rewrite <- (store_None _ _ m).
    destruct (store _ _ _); simpl; split; done. }
  split.
  { unfold SetRegion. rewrite <- (store_None _ _ reg).
    destruct (store _ _ _); simpl; split; done. }
  intros Hwf Hoff q.
  assert (0 < image.X (Size grid)) as HW by (destruct Hwf; nia).
  assert (inBounds grid q) as Hq.
  { apply inBounds_iff; [done|]. subst q. simpl.
    pose proof (Z.mod_pos_bound (offset grid p) _ HW).
    split; [lia|]. split; [apply Z.div_pos; lia|].
    apply Z.div_lt_upper_bound; lia. }
  assert (offset grid q = offset grid p) as Heq.
  { destruct (offset_inBounds grid q Hwf Hq) as [-> _]. subst q. simpl.
    rewrite (Z.div_mod (offset grid p) (image.X (Size grid))) at 3 by lia.
    lia. }
  split; [done|].
  unfold At, RegionAt, SetMaterial, SetRegion. rewrite Heq. done.
Qed.

Lemma access_fails_iff_offset_out_of_range_witness :
  let grid := mkGrid (replicate 4 Rock) (Pt 2 2) (replicate 4 0) 0 in
  newGrid (Pt 2 2) = Some grid /\
  inBounds grid (Pt 0 1) /\
  At grid (Pt 2 0) = At grid (Pt 0 1) /\
  SetMaterial grid (Pt 2 0) Carved = SetMaterial grid (Pt 0 1) Carved.
Proof.
  intros grid. split; [reflexivity|].
  destruct (access_fails_iff_offset_out_of_range grid (Pt 2 0) Carved 0)
    as (_ & _ & _ & _ & H).
  destruct H as (Hq & HAt & _ & HSet & _).
  - apply (newGrid_wf (Pt 2 2)); [simpl; lia | simpl; lia | | reflexivity].
    simpl. unfold maxLen. lia.
  - vm_compute. split; [discriminate | reflexivity].
  - split; [exact Hq|]. split; [exact HAt | exact HSet].
Defined.

(** A point outside the bounds is served as another cell: on a 2x2 grid
    [(2,0)] reads the cell [(0,1)], and writing it carves [(0,1)]. *)
Lemma out_of_bounds_access_hits_other_cell :
  exists grid grid',
    newGrid (Pt 2 2) = Some grid /\
    image.Point_In (Pt 2 0) (Bounds grid) = false /\
    At grid (Pt 2 0) = Some Rock /\
    SetMaterial grid (Pt 2 0) Carved = Some grid' /\
    At grid (Pt 0 1) = Some Rock /\
    At grid' (Pt 0 1) = Some Carved.
Proof. eexists _, _. repeat split; reflexivity. Qed.

(** ** Room dimensions (C3) *)

(** C3 (the code departs from the claim).  With the program's own
    parameters (sizes from 5 to 15) and its 61x61 grid, a trial whose draws
    all come out as 6 yields a width and a height of 17, above [Max]; the
    room is kept. *)
Theorem drawRoom_width_exceeds_Max :
  let clip := image.Rect 0 0 IMG_SIZE IMG_SIZE in
  let r := mkRand (fun _ => 6) 0 in
  (exists r', drawRoom clip ROOM_PARAMS r = Some (13, 13, 17, 17, r')) /\
  image.X (Max ROOM_PARAMS) < 17 /\
  image.Y (Max ROOM_PARAMS) < 17 /\
  (exists r', createRooms clip ROOM_PARAMS r
              = Some ([image.ZR; image.Rect 13 13 30 30], r')) /\
  image.Dx (image.Rect 13 13 30 30) = 17.
Proof.
  intros clip r. split; [eexists; vm_compute; reflexivity|].
  split; [reflexivity|]. split; [reflexivity|].
  split; [eexists; vm_compute; reflexivity | reflexivity].
Qed.

(** ** Room placement (C4) *)

Lemma forEach_invariant {A S} (P : S -> Prop) (l : list A)
    (body : A -> S -> option S) s s' :
  (forall x t t', x ∈ l -> P t -> body x t = Some t' -> P t') ->
  P s -> forEach l body s = Some s' -> P s'.
Proof.
  revert s. induction l as [|x l IH]; intros s Hbody Hs; simpl.
  - by intros [= <-].
  - destruct (body x s) as [t|] eqn:Hx; [|done].
    apply IH.
    + intros y t1 t2 Hy. apply Hbody. by right.
    + eapply Hbody; [left | exact Hs | exact Hx].
Qed.

Lemma Overlaps_sym r s : image.Overlaps r s = image.Overlaps s r.
Proof.
  unfold image.Overlaps.
  destruct (image.Empty r), (image.Empty s); simpl; try done.
  destruct (_ <? _), (_ <? _), (_ <? _), (_ <? _); done.
Qed.

Lemma drawRoom_parity clip rp r y x height width r' :
  drawRoom clip rp r = Some (y, x, height, width, r') ->
  Z.odd width = Z.odd (image.X (Min rp)) /\
  Z.odd height = Z.odd (image.Y (Min rp)).
Proof.
  unfold drawRoom. intros H.
  repeat match type of H with
         | context [Intn ?n ?r] =>
             destruct (Intn n r) as [[? ?]|]; simpl in H; [|done]
         end.
  injection H as <- <- <- <- <-.
  unfold int.add, int.mul.
  rewrite !wrap_odd, !Z.odd_add, !wrap_odd, !Z.odd_mul. simpl.
  by rewrite !andb_false_r.
Qed.

Lemma Rect_Dx_parity x y width height :
  let room := image.Rect x y (int.add x width) (int.add y height) in
  Z.odd (image.Dx room) = Z.odd width /\ Z.odd (image.Dy room) = Z.odd height.
Proof.
  unfold image.Rect, image.Dx, image.Dy, int.add, int.sub.
  destruct (_ <? x), (_ <? y); simpl;
    rewrite !wrap_odd, !Z.odd_sub, !wrap_odd, !Z.odd_add;
    split; destruct (Z.odd x), (Z.odd y), (Z.odd width), (Z.odd height); done.
Qed.

Lemma Rectangle_In_nonempty room clip :
  image.Rectangle_In room clip = true -> image.Empty room = false ->
  image.X (image.Min clip) <= image.X (image.Min room) /\
  image.X (image.Max room) <= image.X (image.Max clip) /\
  image.Y (image.Min clip) <= image.Y (image.Min room) /\
  image.Y (image.Max room) <= image.Y (image.Max clip).
Proof.
  unfold image.Rectangle_In. intros Hin Hne. rewrite Hne in Hin.
  rewrite !andb_true_iff in Hin. lia.
Qed.

Lemma tryRoom_valid clip rp rooms r rooms' r' :
  Forall (fun room => image.Empty room = false -> roomValid clip rp room) rooms ->
  noOverlaps rooms ->
  tryRoom clip rp (rooms, r) = Some (rooms', r') ->
  Forall (fun room => image.Empty room = false -> roomValid clip rp room) rooms'
  /\ noOverlaps rooms'.
Proof.
  intros Hvalid Hno. unfold tryRoom.
  destruct (drawRoom clip rp r) as [[[[[y x] height] width] r1]|] eqn:Hdraw;
    simpl; [|done].
  set (room := image.Rect x y (int.add x width) (int.add y height)).
  destruct (image.Rectangle_In room clip) eqn:Hin; simpl;
    [|by intros [= <- <-]].
  destruct (existsb _ rooms) eqn:Hex; [by intros [= <- <-]|].
  intros [= <- <-]. split.
  - apply Forall_app. split; [done|]. constructor; [|constructor].
    intros Hne. unfold roomValid.
    destruct (Rectangle_In_nonempty _ _ Hin Hne) as (? & ? & ? & ?).
    destruct (Rect_Dx_parity x y width height) as [HDx HDy].
    destruct (drawRoom_parity _ _ _ _ _ _ _ _ Hdraw) as [Hw Hh].
    fold room in HDx, HDy. rewrite HDx, HDy, Hw, Hh. done.
  - assert (forall old, old ∈ rooms -> image.Overlaps room old = false) as Hnew.
    { intros old Hold. apply not_true_is_false. intros Hov.
      assert (existsb (fun old => image.Overlaps room old) rooms = true) as Ht.
      { apply existsb_exists. exists old. split; [|done].
        by apply list_elem_of_In. }
      congruence. }
    intros i j ri rj Hij Hi Hj.
    apply lookup_app_Some in Hi as [Hi | [Hil Hi]],
        Hj as [Hj | [Hjl Hj]].
    + by eapply Hno.
    + apply list_lookup_singleton_Some in Hj as [_ <-].
      rewrite Overlaps_sym. apply Hnew. by eapply list_elem_of_lookup_2.
    + apply list_lookup_singleton_Some in Hi as [_ <-].
      apply Hnew. by eapply list_elem_of_lookup_2.
    + apply list_lookup_singleton_Some in Hi as [Hi _].
      apply list_lookup_singleton_Some in Hj as [Hj _]. lia.
Qed.

(** C4 (amended).  Every rectangle of positive area that [createRooms]
    returns lies inside the clip rectangle, has a width and a height of the
    parity of [Min.X] and [Min.Y] (odd for odd minimum sizes), and overlaps
    no other rectangle of the list. *)
Theorem createRooms_rooms_valid clip rp r rooms r' i room :
  createRooms clip rp r = Some (rooms, r') ->
  rooms !! i = Some room ->
  image.Empty room = false ->
  image.X (image.Min clip) <= image.X (image.Min room) /\
  image.X (image.Max room) <= image.X (image.Max clip) /\
  image.Y (image.Min clip) <= image.Y (image.Min room) /\
  image.Y (image.Max room) <= image.Y (image.Max clip) /\
  Z.odd (image.Dx room) = Z.odd (image.X (Min rp)) /\
  Z.odd (image.Dy room) = Z.odd (image.Y (Min rp)) /\
  forall j other,
    j <> i -> rooms !! j = Some other -> image.Overlaps room other = false.
Proof.
  unfold createRooms. intros Hrun Hi Hne.
  apply (forEach_invariant
           (fun st => Forall (fun room => image.Empty room = false ->
                                          roomValid clip rp room) (fst st)
                      /\ noOverlaps (fst st))) in Hrun.
  - destruct Hrun as [Hvalid Hno]. simpl in *.
    rewrite Forall_lookup in Hvalid.
    destruct (Hvalid i room Hi Hne) as (? & ? & ? & ? & ? & ?).
    repeat (split; [done|]).
    intros j other Hji Hj. by eapply (Hno i j).
  - intros _ [rooms0 r0] [rooms1 r1] _ [Hvalid Hno] Hstep.
    simpl in *. by eapply tryRoom_valid.
  - simpl. split.
    + constructor; [|constructor]. intros Hne'. by vm_compute in Hne'.
    + intros [|a] [|b] ri rj Hab; simpl; intros; try done; lia.
Qed.

Lemma createRooms_rooms_valid_witness :
  let room := image.Rect 13 13 30 30 in
  image.X (image.Max room) <= 61 /\
  Z.odd (image.Dx room) = true /\
  image.Overlaps room image.ZR = false.
Proof.
  intros room.
  destruct (createRooms_rooms_valid
              (image.Rect 0 0 IMG_SIZE IMG_SIZE) ROOM_PARAMS
              (mkRand (fun _ => 6) 0)
              [image.ZR; room] (mkRand (fun _ => 6) 40) 1%nat room)
    as (_ & HX & _ & _ & HDx & _ & Hno).
  - vm_compute. reflexivity.
  - reflexivity.
  - reflexivity.
  - split; [exact HX|]. split; [exact HDx|].
    apply (Hno 0%nat); [lia | reflexivity].
Defined.

(** The claim as stated fails twice.  With the program's parameters the
    list starts with the zero rectangle of [make], whose width is 0; and
    with an even minimum size the rooms drawn are themselves even. *)
Lemma createRooms_returns_even_rectangles :
  let clip := image.Rect 0 0 IMG_SIZE IMG_SIZE in
  (exists r', createRooms clip ROOM_PARAMS (mkRand (fun _ => 6) 0)
              = Some ([image.ZR; image.Rect 13 13 30 30], r')) /\
  image.Dx image.ZR = 0 /\
  (exists r', createRooms clip (mkRoomParams (Pt 4 4) (Pt 15 15))
                          (mkRand (fun _ => 0) 0)
              = Some ([image.ZR; image.Rect 1 1 5 5], r')) /\
  image.Dx (image.Rect 1 1 5 5) = 4.
Proof.
  intros clip. split; [eexists; vm_compute; reflexivity|].
  split; [reflexivity|].
  split; [eexists; vm_compute; reflexivity | reflexivity].
Qed.

(** ** Carvability (C6) *)

Lemma Dirs_cases d : d ∈ Dirs -> d = Up \/ d = Right \/ d = Down \/ d = Left.
Proof. unfold Dirs. rewrite !elem_of_cons, elem_of_nil. tauto. Qed.

Lemma inBounds_small grid p :
  wf grid -> inBounds grid p ->
  0 <= image.X p < maxLen /\ 0 <= image.Y p < maxLen.
Proof.
  intros Hwf Hp. apply inBounds_iff in Hp; [|done].
  destruct Hwf as [? ? _ _ ?]. nia.
Qed.

Lemma At_inBounds grid p :
  wf grid -> inBounds grid p -> exists m, At grid p = Some m.
Proof.
  intros Hwf Hp. destruct (At grid p) as [m|] eqn:Hm; [by exists m|].
  apply index_None in Hm.
  destruct (offset_inBounds grid p Hwf Hp) as [_ ?].
  destruct Hwf. lia.
Qed.

Lemma RegionAt_inBounds grid p :
  wf grid -> inBounds grid p -> exists reg, RegionAt grid p = Some reg.
Proof.
  intros Hwf Hp. destruct (RegionAt grid p) as [reg|] eqn:Hm; [by exists reg|].
  apply index_None in Hm.
  destruct (offset_inBounds grid p Hwf Hp) as [_ ?].
  destruct Hwf. lia.
Qed.

(** From a cell inside the bounds, [k] steps along a direction, for the
    few steps the program takes. *)
Lemma steps_coords grid c d :
  wf grid -> inBounds grid c -> d ∈ Dirs ->
  let dx := image.X (dpoint d) in
  let dy := image.Y (dpoint d) in
  -1 <= dx <= 1 /\ -1 <= dy <= 1 /\
  AddDir c d = image.mkPoint (image.X c + dx) (image.Y c + dy) /\
  AddDir (AddDir c d) d
  = image.mkPoint (image.X c + 2 * dx) (image.Y c + 2 * dy) /\
  AddDir (AddDir (AddDir c d) d) d
  = image.mkPoint (image.X c + 3 * dx) (image.Y c + 3 * dy) /\
  Add c (Mul (dpoint d) 2)
  = image.mkPoint (image.X c + 2 * dx) (image.Y c + 2 * dy) /\
  Add c (Mul (dpoint d) 3)
  = image.mkPoint (image.X c + 3 * dx) (image.Y c + 3 * dy) /\
  AddDir c (Reverse d) = image.mkPoint (image.X c - dx) (image.Y c - dy).
Proof.
  intros Hwf Hc Hd.
  destruct (inBounds_small grid c Hwf Hc) as [HX HY]. unfold maxLen in *.
  destruct c as [cx cy]. simpl in *.
  apply Dirs_cases in Hd as [-> | [-> | [-> | ->]]]; simpl;
    unfold AddDir, Reverse, Add, Mul, image.Point_Add, image.Point_Mul; simpl;
    unwrap; repeat split; try lia; f_equal; lia.
Qed.

(** Between a cell inside the bounds and the third step from it, everything
    is inside the bounds. *)
Lemma inBounds_between grid c dx dy k :
  wf grid -> inBounds grid c ->
  inBounds grid (image.mkPoint (image.X c + 3 * dx) (image.Y c + 3 * dy)) ->
  0 <= k <= 3 ->
  inBounds grid (image.mkPoint (image.X c + k * dx) (image.Y c + k * dy)).
Proof.
  intros Hwf Hc Hb Hk.
  apply inBounds_iff in Hc, Hb; try done. apply inBounds_iff; [done|].
  simpl in *. nia.
Qed.

Lemma canCarve_inBounds grid c d :
  wf grid -> inBounds grid c -> d ∈ Dirs ->
  exists ok,
    canCarve grid c d = Some ok /\
    (ok = true <->
     inBounds grid (AddDir (AddDir (AddDir c d) d) d) /\
     At grid (AddDir (AddDir c d) d) = Some Rock).
Proof.
  intros Hwf Hc Hd.
  destruct (steps_coords grid c d Hwf Hc Hd) as (_ & _ & _ & H2 & H3 & _).
  unfold canCarve. cbv zeta. rewrite H3, H2.
  destruct (image.Point_In _ (Bounds grid)) eqn:Hin.
  - assert (inBounds grid
              (image.mkPoint (image.X c + 2 * image.X (dpoint d))
                             (image.Y c + 2 * image.Y (dpoint d)))) as Hnext
      by (apply inBounds_between; [done | done | exact Hin | lia]).
    destruct (At_inBounds grid _ Hwf Hnext) as [m ->]. simpl.
    exists (Material_eqb m Rock). split; [done|].
    destruct m; simpl; split; try done; intros [_ [=]].
  - exists false. split; [done|]. split; [done|].
    intros [Hb _]. unfold inBounds in Hb. congruence.
Qed.

(** C6.  From a cell inside the bounds of a well-formed grid, [canCarve]
    returns, and it returns true exactly when the point three steps out is
    inside the bounds and the cell two steps out is Rock. *)
Theorem canCarve_spec grid c d :
  wf grid -> inBounds grid c -> d ∈ Dirs ->
  exists ok,
    canCarve grid c d = Some ok /\
    (ok = true <->
     inBounds grid (Add c (Mul (dpoint d) 3)) /\
     At grid (Add c (Mul (dpoint d) 2)) = Some Rock).
Proof.
  intros Hwf Hc Hd.
  destruct (steps_coords grid c d Hwf Hc Hd)
    as (_ & _ & _ & H2 & H3 & -> & -> & _).
  rewrite <- H2, <- H3. by apply canCarve_inBounds.
Qed.

Lemma canCarve_spec_witness :
  let grid := mkGrid (replicate 25 Rock) (Pt 5 5) (replicate 25 0) 0 in
  canCarve grid (Pt 1 1) Right = Some true /\
  canCarve grid (Pt 1 1) Up = Some false.
Proof.
  intros grid.
  assert (wf grid) as Hwf
    by (apply (newGrid_wf (Pt 5 5)); [simpl; lia | simpl; lia
                                     | simpl; unfold maxLen; lia | reflexivity]).
  assert (inBounds grid (Pt 1 1)) as Hc by reflexivity.
  split.
  - destruct (canCarve_spec grid (Pt 1 1) Right Hwf Hc) as (ok & -> & Hok).
    + unfold Dirs. rewrite !elem_of_cons. tauto.
    + f_equal. apply Hok. split; reflexivity.
  - destruct (canCarve_spec grid (Pt 1 1) Up Hwf Hc) as (ok & -> & Hok).
    + unfold Dirs. rewrite !elem_of_cons. tauto.
    + f_equal. apply not_true_is_false. intros Ht.
      apply Hok in Ht as [Hb _]. vm_compute in Hb. discriminate.
Defined.

(** ** The loop of [grow] (C8, C9) *)

Lemma Intn_Some n r :
  0 < n ->
  exists k r', Intn n r = Some (k, r') /\ 0 <= k < n.
Proof.
  intros Hn. unfold Intn. destruct (Z.leb_spec n 0); [lia|].
  eexists _, _. split; [done|]. by apply Z.mod_pos_bound.
Qed.

Lemma index_in_range {A} (s : list A) k :
  0 <= k < Z.of_nat (length s) -> exists x, index s k = Some x /\ x ∈ s.
Proof.
  intros Hk. destruct (lookup_lt_is_Some_2 s (Z.to_nat k)) as [x Hx]; [lia|].
  exists x. split; [apply index_Some; split; [lia | done]|].
  by eapply list_elem_of_lookup_2.
Qed.

Lemma carvable_spec grid cell :
  wf grid -> inBounds grid cell ->
  exists unmade,
    carvable grid cell = Some unmade /\
    forall d, d ∈ unmade -> d ∈ Dirs /\ canCarve grid cell d = Some true.
Proof.
  intros Hwf Hc. unfold carvable.
  assert (forall l acc,
            (forall d, d ∈ l -> d ∈ Dirs) ->
            (forall d, d ∈ acc -> d ∈ Dirs /\ canCarve grid cell d = Some true) ->
            exists unmade,
              forEach l
                (fun d unmade =>
                   ok ← canCarve grid cell d;
                   Some (if (ok : bool) then unmade ++ [d] else unmade)) acc
              = Some unmade /\
              forall d, d ∈ unmade ->
                        d ∈ Dirs /\ canCarve grid cell d = Some true) as Hloop.
  { induction l as [|d l IH]; intros acc Hl Hacc; simpl; [by exists acc|].
    destruct (canCarve_inBounds grid cell d Hwf Hc) as (ok & Hok & _);
      [apply Hl; by left|].
    rewrite Hok. simpl. apply IH; [intros; apply Hl; by right|].
    destruct ok; [|done].
    intros d' [Hd' | ->%list_elem_of_singleton]%elem_of_app; [by apply Hacc|].
    split; [apply Hl; by left | done]. }
  apply Hloop; [done|]. intros d Hd. inversion Hd.
Qed.

Lemma Bounds_Size grid grid' : Size grid' = Size grid -> Bounds grid' = Bounds grid.
Proof. unfold Bounds. by intros ->. Qed.

Lemma inBounds_Size grid grid' p :
  Size grid' = Size grid -> inBounds grid p -> inBounds grid' p.
Proof. unfold inBounds. intros HS. by rewrite (Bounds_Size _ _ HS). Qed.

Lemma SetMaterial_inBounds grid p m :
  wf grid -> inBounds grid p ->
  exists grid',
    SetMaterial grid p m = Some grid' /\ wf grid' /\
    g grid' = <[Z.to_nat (offset grid p) := m]> (g grid) /\
    Size grid' = Size grid /\ regCount grid' = regCount grid.
Proof.
  intros Hwf Hp. destruct (offset_inBounds grid p Hwf Hp) as [_ Hoff].
  unfold SetMaterial.
  destruct (store (g grid) (offset grid p) m) as [cells|] eqn:Hst.
  - apply store_Some in Hst as [_ ->]. simpl. eexists. split; [done|].
    split; [|done]. destruct Hwf. split; simpl; rewrite ?length_insert; done.
  - apply store_None in Hst. destruct Hwf. lia.
Qed.

Lemma SetRegion_inBounds grid p reg :
  wf grid -> inBounds grid p ->
  exists grid',
    SetRegion grid p reg = Some grid' /\ wf grid' /\
    g grid' = g grid /\
    Size grid' = Size grid /\ regCount grid' = regCount grid.
Proof.
  intros Hwf Hp. destruct (offset_inBounds grid p Hwf Hp) as [_ Hoff].
  unfold SetRegion.
  destruct (store (regions grid) (offset grid p) reg) as [regs|] eqn:Hst.
  - apply store_Some in Hst as [_ ->]. simpl. eexists. split; [done|].
    split; [|done]. destruct Hwf. split; simpl; rewrite ?length_insert; done.
  - apply store_None in Hst. destruct Hwf. lia.
Qed.

Lemma rocks_insert_le (l : list Material) i :
  (length (filter (fun m => m = Rock) (<[i:=Carved]> l))
   <= length (filter (fun m => m = Rock) l))%nat.
Proof.
  revert i. induction l as [|x l IH]; intros [|i]; simpl; try lia.
  - rewrite !filter_cons. destruct (decide (Carved = Rock)); [done|].
    destruct (decide (x = Rock)); simpl; lia.
  - rewrite !filter_cons. specialize (IH i).
    destruct (decide (x = Rock)); simpl; lia.
Qed.

Lemma rocks_insert_lt (l : list Material) i :
  l !! i = Some Rock ->
  (length (filter (fun m => m = Rock) (<[i:=Carved]> l))
   < length (filter (fun m => m = Rock) l))%nat.
Proof.
  revert i. induction l as [|x l IH]; intros [|i]; simpl; try done.
  - intros [= ->]. rewrite !filter_cons.
    destruct (decide (Carved = Rock)); [done|].
    destruct (decide (Rock = Rock)); [simpl; lia | done].
  - intros Hi. rewrite !filter_cons. specialize (IH i Hi).
    destruct (decide (x = Rock)); simpl; lia.
Qed.

Lemma rocks_carve_two (l : list Material) i j :
  l !! j = Some Rock ->
  (length (filter (fun m => m = Rock) (<[j:=Carved]> (<[i:=Carved]> l)))
   < length (filter (fun m => m = Rock) l))%nat.
Proof.
  intros Hj. destruct (decide (i = j)) as [->|Hij].
  - rewrite list_insert_insert_eq. by apply rocks_insert_lt.
  - pose proof (rocks_insert_le l i).
    assert (<[i:=Carved]> l !! j = Some Rock) as Hj'
      by (by rewrite list_lookup_insert_ne).
    apply rocks_insert_lt in Hj'. lia.
Qed.

Lemma rocks_le_length grid : (rocks grid <= length (g grid))%nat.
Proof. unfold rocks. apply length_filter. Qed.

Lemma grow_iter_dead_end region grid cells r k r1 cell :
  Intn (Z.of_nat (length cells)) r = Some (k, r1) ->
  index cells k = Some cell ->
  carvable grid cell = Some [] ->
  grow_iter region (grid, cells, r) = Some (grid, drop 1 cells, r1).
Proof.
  intros Hk Hc Hu. unfold grow_iter.
  apply bind_Some. exists (k, r1). split; [exact Hk|].
  apply bind_Some. exists cell. split; [exact Hc|].
  apply bind_Some. exists []. split; [exact Hu|]. reflexivity.
Qed.

Lemma carve_points grid cell d :
  wf grid -> inBounds grid cell -> d ∈ Dirs ->
  canCarve grid cell d = Some true ->
  inBounds grid (AddDir cell d) /\
  inBounds grid (AddDir (AddDir cell d) d) /\
  At grid (AddDir (AddDir cell d) d) = Some Rock.
Proof.
  intros Hwf Hc HdD Hcan.
  destruct (canCarve_inBounds grid cell d Hwf Hc HdD) as (ok & Hok & Hiff).
  assert (ok = true) as -> by congruence.
  destruct Hiff as [[Hbeyond Hrock] _]; [done|].
  destruct (steps_coords grid cell d Hwf Hc HdD) as (_ & _ & H1 & H2 & H3 & _).
  rewrite H3 in Hbeyond. split; [|split; [|exact Hrock]].
  - rewrite H1.
    pose proof (inBounds_between grid cell _ _ 1 Hwf Hc Hbeyond) as Hb.
    rewrite !Z.mul_1_l in Hb. apply Hb. lia.
  - rewrite H2. apply inBounds_between; [done | done | done | lia].
Qed.

Lemma carve_grid grid p1 p2 region :
  wf grid -> inBounds grid p1 -> inBounds grid p2 ->
  At grid p2 = Some Rock ->
  exists g1 g2 g3 g4,
    SetMaterial grid p1 Carved = Some g1 /\
    SetRegion g1 p1 region = Some g2 /\
    SetMaterial g2 p2 Carved = Some g3 /\
    SetRegion g3 p2 region = Some g4 /\
    wf g4 /\ Size g4 = Size grid /\ regCount g4 = regCount grid /\
    (rocks g4 < rocks grid)%nat.
Proof.
  intros Hwf Hp1 Hp2 Hrock.
  destruct (SetMaterial_inBounds grid p1 Carved Hwf Hp1)
    as (g1 & Hs1 & Hwf1 & Hg1 & HS1 & HC1).
  destruct (SetRegion_inBounds g1 p1 region Hwf1 (inBounds_Size _ _ _ HS1 Hp1))
    as (g2 & Hs2 & Hwf2 & Hg2 & HS2 & HC2).
  assert (Size g2 = Size grid) as HS2' by (by rewrite HS2).
  destruct (SetMaterial_inBounds g2 p2 Carved Hwf2
              (inBounds_Size _ _ _ HS2' Hp2))
    as (g3 & Hs3 & Hwf3 & Hg3 & HS3 & HC3).
  assert (Size g3 = Size grid) as HS3' by (by rewrite HS3).
  destruct (SetRegion_inBounds g3 p2 region Hwf3
              (inBounds_Size _ _ _ HS3' Hp2))
    as (g4 & Hs4 & Hwf4 & Hg4 & HS4 & HC4).
  exists g1, g2, g3, g4. repeat (split; [assumption|]).
  split; [by rewrite HS4|]. split; [by rewrite HC4, HC3, HC2|].
  unfold rocks. rewrite Hg4, Hg3, Hg2, Hg1.
  apply rocks_carve_two.
  unfold At in Hrock. apply index_Some in Hrock as [_ Hrock].
  unfold offset. rewrite HS2'. exact Hrock.
Qed.

Lemma grow_iter_carve region grid cells r k r1 cell unmade j r2 d :
  wf grid -> inBounds grid cell ->
  Intn (Z.of_nat (length cells)) r = Some (k, r1) ->
  index cells k = Some cell ->
  carvable grid cell = Some unmade ->
  Intn (Z.of_nat (length unmade)) r1 = Some (j, r2) ->
  index unmade j = Some d ->
  d ∈ Dirs -> canCarve grid cell d = Some true ->
  exists grid',
    grow_iter region (grid, cells, r)
    = Some (grid', cells ++ [AddDir (AddDir cell d) d], r2) /\
    wf grid' /\ Size grid' = Size grid /\ regCount grid' = regCount grid /\
    (rocks grid' < rocks grid)%nat /\
    inBounds grid (AddDir (AddDir cell d) d).
Proof.
  intros Hwf Hc Hk Hcell Hu Hj Hd HdD Hcan.
  destruct (carve_points grid cell d Hwf Hc HdD Hcan) as (Hp1 & Hp2 & Hrock).
  destruct (carve_grid grid _ _ region Hwf Hp1 Hp2 Hrock)
    as (g1 & g2 & g3 & g4 & Hs1 & Hs2 & Hs3 & Hs4 & Hwf4 & HS & HC & Hlt).
  exists g4. split; [|repeat (split; [assumption|]); assumption].
  unfold grow_iter.
  apply bind_Some. exists (k, r1). split; [exact Hk|].
  apply bind_Some. exists cell. split; [exact Hcell|].
  apply bind_Some. exists unmade. split; [exact Hu|].
  assert ((0 <? Z.of_nat (length unmade)) = true) as ->.
  { apply index_Some in Hd as [_ Hd]. apply lookup_lt_Some in Hd.
    apply Z.ltb_lt. lia. }
  apply bind_Some. exists (j, r2). split; [exact Hj|].
  apply bind_Some. exists d. split; [exact Hd|].
  apply bind_Some. exists g1. split; [exact Hs1|].
  apply bind_Some. exists g2. split; [exact Hs2|].
  apply bind_Some. exists g3. split; [exact Hs3|].
  apply bind_Some. exists g4. split; [exact Hs4|].
  reflexivity.
Qed.

Lemma grow_iter_progress region grid cells r :
  growInv grid cells -> cells <> [] ->
  exists grid' cells' r',
    grow_iter region (grid, cells, r) = Some (grid', cells', r') /\
    growInv grid' cells' /\
    Size grid' = Size grid /\ regCount grid' = regCount grid /\
    ((rocks grid' < rocks grid)%nat /\ length cells' = S (length cells) \/
     grid' = grid /\ S (length cells') = length cells).
Proof.
  intros [Hwf Hcells] Hne.
  destruct (Intn_Some (Z.of_nat (length cells)) r) as (k & r1 & Hk & Hkr).
  { destruct cells; [done | simpl; lia]. }
  destruct (index_in_range cells k Hkr) as (cell & Hcell & Hin).
  assert (inBounds grid cell) as Hc by (by eapply Forall_forall in Hcells).
  destruct (carvable_spec grid cell Hwf Hc) as (unmade & Hu & Hdirs).
  destruct unmade as [|d0 unmade0].
  - exists grid. exists (drop 1 cells). exists r1.
    split; [by eapply grow_iter_dead_end|].
    split; [split; [done | by apply Forall_drop]|].
    split; [done|]. split; [done|]. right. split; [done|].
    rewrite length_drop. destruct cells; [done | simpl; lia].
  - set (unmade := d0 :: unmade0) in *.
    destruct (Intn_Some (Z.of_nat (length unmade)) r1) as (j & r2 & Hj & Hjr);
      [simpl; lia|].
    destruct (index_in_range unmade j Hjr) as (d & Hd & Hdin).
    destruct (Hdirs d Hdin) as [HdD Hcan].
    destruct (grow_iter_carve region grid cells r k r1 cell unmade j r2 d)
      as (grid' & Hiter & Hwf' & HS & HC & Hrocks & Hp2); try done.
    exists grid'. exists (cells ++ [AddDir (AddDir cell d) d]). exists r2.
    split; [done|]. split.
    { split; [done|]. apply Forall_app. split.
      - eapply Forall_impl; [exact Hcells|].
        intros p Hp. by eapply inBounds_Size.
      - constructor; [by eapply inBounds_Size | constructor]. }
    split; [done|]. split; [done|]. left. split; [done|].
    rewrite length_app. simpl. lia.
Qed.

Lemma grow_loop_terminates region fuel :
  forall grid cells r,
    growInv grid cells ->
    (2 * rocks grid + length cells <= fuel)%nat ->
    exists grid' r',
      grow_loop fuel region (grid, cells, r) = Done (grid', r') /\
      wf grid' /\ Size grid' = Size grid /\ regCount grid' = regCount grid /\
      (rocks grid' <= rocks grid)%nat.
Proof.
  induction fuel as [|fuel IH]; intros grid cells r Hinv Hfuel.
  - destruct cells as [|c cells]; [|simpl in Hfuel; lia].
    exists grid, r. destruct Hinv as [Hwf _].
    split; [reflexivity|]. split; [exact Hwf|]. auto.
  - destruct cells as [|c cells].
    { exists grid, r. destruct Hinv as [Hwf _].
      split; [reflexivity|]. split; [exact Hwf|]. auto. }
    destruct (grow_iter_progress region grid (c :: cells) r Hinv)
      as (grid1 & cells1 & r1 & Hiter & Hinv1 & HS & HC & Hcase); [done|].
    destruct (IH grid1 cells1 r1 Hinv1) as (grid' & r' & Hrun & ? & ? & ? & ?).
    { destruct Hcase as [[? ?] | [-> ?]]; lia. }
    exists grid', r'. split.
    + change (grow_loop (S fuel) region (grid, c :: cells, r))
        with (match grow_iter region (grid, c :: cells, r) with
              | Some st' => grow_loop fuel region st'
              | None => Panic
              end).
      by rewrite Hiter.
    + split; [assumption|]. split; [congruence|]. split; [congruence|].
      destruct Hcase as [[? ?] | [-> ?]]; lia.
Qed.

(** C8.  On a well-formed grid, from a start inside the bounds and for every
    sequence of random draws, the loop of [grow] ends: twice the number of
    Rock cells plus one is enough fuel.  The reason is the one the claim
    gives: an iteration never panics and either carves a cell that was Rock
    and adds one cell to the active list, or leaves the grid alone and
    removes one cell from the list. *)
Theorem grow_terminates grid from region r fuel :
  wf grid -> inBounds grid from ->
  (2 * rocks grid + 1 <= fuel)%nat ->
  (exists grid' r', grow fuel grid from region r = Done (grid', r')) /\
  (forall grid1 cells1 r1,
     growInv grid1 cells1 -> cells1 <> [] ->
     exists grid2 cells2 r2,
       grow_iter region (grid1, cells1, r1) = Some (grid2, cells2, r2) /\
       growInv grid2 cells2 /\
       ((rocks grid2 < rocks grid1)%nat /\ length cells2 = S (length cells1) \/
        grid2 = grid1 /\ S (length cells2) = length cells1)).
Proof.
  intros Hwf Hfrom Hfuel. split.
  - unfold grow. simpl.
    destruct (grow_loop_terminates region fuel grid [from] r)
      as (grid' & r' & Hrun & _); [| simpl; lia | by exists grid', r'].
    split; [done|]. by constructor.
  - intros grid1 cells1 r1 Hinv Hne.
    destruct (grow_iter_progress region grid1 cells1 r1 Hinv Hne)
      as (grid2 & cells2 & r2 & ? & ? & _ & _ & ?).
    by exists grid2, cells2, r2.
Qed.

Lemma grow_terminates_witness :
  let grid := mkGrid (replicate 15 Rock) (Pt 5 3) (replicate 15 0) 0 in
  exists grid' r',
    grow 31 grid (Pt 1 1) 1 (mkRand (fun n => Z.of_nat n) 0) = Done (grid', r').
Proof.
  intros grid.
  apply (grow_terminates grid (Pt 1 1) 1 (mkRand (fun n => Z.of_nat n) 0) 31).
  - apply (newGrid_wf (Pt 5 3)); [simpl; lia | simpl; lia | | reflexivity].
    simpl. unfold maxLen. lia.
  - reflexivity.
  - vm_compute. lia.
Defined.

Lemma carvable_none grid cell :
  (forall d, d ∈ Dirs -> canCarve grid cell d = Some false) ->
  carvable grid cell = Some [].
Proof.
  intros Hno. unfold carvable, Dirs. simpl.
  rewrite !Hno by (unfold Dirs; rewrite !elem_of_cons; tauto). done.
Qed.

(** C9.  When the examined cell has no carvable direction, the iteration
    leaves the grid alone and drops exactly the front of the active list,
    whichever cell was examined; the examined cell can be another one and
    then stays in the list. *)
Theorem grow_dead_end_removes_front :
  (forall region grid cells r k r1 cell,
     Intn (Z.of_nat (length cells)) r = Some (k, r1) ->
     index cells k = Some cell ->
     (forall d, d ∈ Dirs -> canCarve grid cell d = Some false) ->
     exists front rest,
       cells = front :: rest /\
       grow_iter region (grid, cells, r) = Some (grid, rest, r1)) /\
  (exists region grid r k r1 front cell rest,
     Intn (Z.of_nat (length (front :: rest))) r = Some (k, r1) /\
     index (front :: rest) k = Some cell /\
     (forall d, d ∈ Dirs -> canCarve grid cell d = Some false) /\
     grow_iter region (grid, front :: rest, r) = Some (grid, rest, r1) /\
     cell <> front /\ cell ∈ rest).
Proof.
  split.
  - intros region grid cells r k r1 cell Hk Hcell Hno.
    destruct cells as [|front rest].
    { unfold index in Hcell. simpl in Hcell.
      by destruct (0 <=? k), (k <? 0). }
    exists front, rest. split; [done|].
    rewrite (grow_iter_dead_end region grid (front :: rest) r k r1 cell);
      [done | done | done | by apply carvable_none].
  - exists 1,
      (mkGrid [Rock; Rock; Rock; Rock; Rock;
               Rock; Carved; Carved; Carved; Rock;
               Rock; Rock; Rock; Rock; Rock]
              (Pt 5 3) [0; 0; 0; 0; 0; 0; 1; 1; 1; 0; 0; 0; 0; 0; 0] 1),
      (mkRand (fun _ => 1) 0), 1, (mkRand (fun _ => 1) 1),
      (Pt 1 1), (Pt 3 1), [Pt 3 1; Pt 1 1].
    split; [reflexivity|]. split; [reflexivity|].
    split.
    { intros d Hd.
      apply Dirs_cases in Hd as [-> | [-> | [-> | ->]]]; reflexivity. }
    split; [reflexivity|]. split; [discriminate|]. by left.
Qed.

Lemma grow_dead_end_removes_front_witness :
  let grid := mkGrid (replicate 9 Rock) (Pt 3 3) (replicate 9 0) 0 in
  let r := mkRand (fun _ => 1) 0 in
  grow_iter 1 (grid, [Pt 1 1; Pt 1 1], r)
  = Some (grid, [Pt 1 1], mkRand (fun _ => 1) 1).
Proof.
  intros grid r.
  destruct (proj1 grow_dead_end_removes_front 1 grid [Pt 1 1; Pt 1 1] r 1
              (mkRand (fun _ => 1) 1) (Pt 1 1))
    as (front & rest & Heq & Hiter).
  - reflexivity.
  - reflexivity.
  - intros d Hd.
    apply Dirs_cases in Hd as [-> | [-> | [-> | ->]]]; reflexivity.
  - injection Heq as <- <-. exact Hiter.
Defined.

(** ** The passes of [growMaze] (C2) *)

Lemma forEachR_app {A S} (l1 l2 : list A) (body : A -> S -> result S) s :
  forEachR (l1 ++ l2) body s
  = match forEachR l1 body s with
    | Done s' => forEachR l2 body s'
    | Panic => Panic
    | OutOfFuel => OutOfFuel
    end.
Proof.
  revert s. induction l1 as [|x l1 IH]; intros s; simpl; [done|].
  destruct (body x s); auto.
Qed.

Lemma forEachR_row {S} (xs : list Z) (y : Z) (pass : Point -> S -> result S) s :
  forEachR (x ← xs; [Pt x y]) pass s
  = forEachR xs (fun x w => pass (Pt x y) w) s.
Proof.
  revert s. induction xs as [|x xs IH]; intros s; [done|].
  rewrite bind_cons. simpl. destruct (pass (Pt x y) s); auto.
Qed.

Lemma forEachR_nested {S} (ys xs : list Z) (pass : Point -> S -> result S) s :
  forEachR ys (fun y w => forEachR xs (fun x w => pass (Pt x y) w) w) s
  = forEachR (y ← ys; x ← xs; [Pt x y]) pass s.
Proof.
  revert s. induction ys as [|y ys IH]; intros s; [done|].
  rewrite bind_cons, forEachR_app, forEachR_row. simpl.
  destruct (forEachR xs _ s); auto.
Qed.

Lemma growMazeLoops_lattice {W} (pass : Point -> W -> result W) bounds w :
  growMazeLoops pass bounds w = forEachR (lattice bounds) pass w.
Proof. unfold growMazeLoops, lattice. apply forEachR_nested. Qed.

(** Membership and order in a row-major enumeration. *)
Lemma elem_of_rows (ys xs : list Z) p :
  p ∈ (y ← ys; x ← xs; [Pt x y]) <-> image.Y p ∈ ys /\ image.X p ∈ xs.
Proof.
  rewrite list_elem_of_bind. split.
  - intros (y & Hp & Hy). apply list_elem_of_bind in Hp as (x & Hp & Hx).
    apply list_elem_of_singleton in Hp as ->. done.
  - intros [Hy Hx]. exists (image.Y p). split; [|done].
    apply list_elem_of_bind. exists (image.X p). split; [|done].
    destruct p. by apply list_elem_of_singleton.
Qed.

Lemma rows_sorted (ys xs : list Z) :
  StronglySorted Z.lt ys -> StronglySorted Z.lt xs ->
  StronglySorted rowMajorLt (y ← ys; x ← xs; [Pt x y]).
Proof.
  intros Hys Hxs. induction Hys as [|y ys Hys IH Hlt]; [constructor|].
  rewrite bind_cons. apply StronglySorted_app_2; [| |exact IH].
  - intros p q Hp Hq.
    apply list_elem_of_bind in Hp as (x & Hp & _).
    apply list_elem_of_singleton in Hp as ->.
    apply elem_of_rows in Hq as [Hq _].
    left. simpl. rewrite Forall_forall in Hlt. by apply Hlt.
  - clear -Hxs. induction Hxs as [|x xs Hxs IH Hlt]; [constructor|].
    rewrite bind_cons. simpl. constructor; [exact IH|].
    apply Forall_forall. intros q Hq.
    apply list_elem_of_bind in Hq as (x' & Hq & Hx').
    apply list_elem_of_singleton in Hq as ->.
    right. simpl. split; [done|]. rewrite Forall_forall in Hlt. by apply Hlt.
Qed.

Lemma forRange_sorted lo hi step :
  0 < step -> StronglySorted Z.lt (forRange lo hi step).
Proof. intros. by apply count_sorted. Qed.

Lemma Bounds_wf grid :
  wf grid ->
  Bounds grid = image.mkRectangle (image.mkPoint 0 0) (Size grid).
Proof.
  intros [HX HY _ _ _]. unfold Bounds, image.Rect.
  destruct (Z.ltb_spec (image.X (Size grid)) 0); [lia|].
  destruct (Z.ltb_spec (image.Y (Size grid)) 0); [lia|].
  by destruct (Size grid).
Qed.

Lemma elem_of_lattice grid p :
  wf grid ->
  p ∈ lattice (Bounds grid) <->
  inBounds grid p /\ Z.odd (image.X p) = true /\ Z.odd (image.Y p) = true.
Proof.
  intros Hwf. rewrite (inBounds_iff grid p Hwf).
  unfold lattice. rewrite elem_of_rows, (Bounds_wf grid Hwf). simpl.
  unwrap. rewrite !elem_of_forRange by lia.
  assert (forall z, Z.odd z = true <-> (z - (0 + 1)) mod 2 = 0) as Hodd.
  { intros z. rewrite Z.odd_spec, Z.mod_divide by lia. split.
    - intros [k ->]. exists k. lia.
    - intros [k Hk]. exists k. lia. }
  rewrite <- !Hodd.
  assert (forall z, Z.odd z = true -> z <> 0) as Hnz by (by intros z Hz ->).
  split.
  - intros [[[? ?] HY] [[? ?] HX]]. repeat split; (lia || done).
  - intros [[[? ?] [? ?]] [HX HY]].
    pose proof (Hnz _ HX). pose proof (Hnz _ HY). repeat split; (lia || done).
Qed.

Lemma lattice_sorted bounds : StronglySorted rowMajorLt (lattice bounds).
Proof. unfold lattice. apply rows_sorted; by apply forRange_sorted. Qed.

Lemma wf_length grid grid' :
  wf grid -> wf grid' -> Size grid' = Size grid ->
  length (g grid') = length (g grid).
Proof. intros [_ _ H1 _ _] [_ _ H2 _ _] HS. rewrite HS in H2. lia. Qed.

Lemma grow_total fuel grid from region r :
  wf grid -> inBounds grid from ->
  (2 * length (g grid) + 1 <= fuel)%nat ->
  exists grid' r',
    grow fuel grid from region r = Done (grid', r') /\
    wf grid' /\ Size grid' = Size grid /\ regCount grid' = regCount grid.
Proof.
  intros Hwf Hfrom Hfuel. pose proof (rocks_le_length grid).
  destruct (grow_loop_terminates region fuel grid [from] r)
    as (grid' & r' & Hrun & Hwf' & HS & HC & _).
  - split; [done|]. by constructor.
  - simpl. lia.
  - by exists grid', r'.
Qed.

Lemma growMaze_passes fuel region pts :
  forall grid r (calls : list (Point * option Material)),
    wf grid -> Forall (inBounds grid) pts ->
    (2 * length (g grid) + 1 <= fuel)%nat ->
    exists grid' r' calls',
      forEachR pts
        (fun p '(grid, r, calls) =>
           match grow fuel grid p region r with
           | Done (grid', r') => Done (grid', r', calls ++ [(p, At grid p)])
           | Panic => Panic
           | OutOfFuel => OutOfFuel
           end) (grid, r, calls)
      = Done (grid', r', calls') /\
      forEachR pts (fun p '(grid, r) => grow fuel grid p region r) (grid, r)
      = Done (grid', r') /\
      calls'.*1 = calls.*1 ++ pts /\
      wf grid' /\ Size grid' = Size grid /\ regCount grid' = regCount grid.
Proof.
  induction pts as [|p pts IH]; intros grid r calls Hwf Hpts Hfuel.
  - exists grid, r, calls. simpl. by rewrite app_nil_r.
  - apply Forall_cons in Hpts as [Hp Hpts].
    destruct (grow_total fuel grid p region r Hwf Hp Hfuel)
      as (grid1 & r1 & Hrun & Hwf1 & HS1 & HC1).
    destruct (IH grid1 r1 (calls ++ [(p, At grid p)]) Hwf1)
      as (grid' & r' & calls' & Ht & Hu & Hcalls & Hwf' & HS & HC).
    { eapply Forall_impl; [exact Hpts|]. intros q Hq. by eapply inBounds_Size. }
    { by rewrite (wf_length grid grid1). }
    exists grid', r', calls'. simpl. rewrite Hrun.
    split; [exact Ht|]. split; [exact Hu|].
    split; [|split; [done | split; congruence]].
    rewrite Hcalls, fmap_app. simpl. by rewrite <- app_assoc.
Qed.

(** C2 (amended).  [growMaze] runs one pass of [grow] at every point of the
    odd lattice inside the bounds, in row-major order, whatever material the
    point has when its turn comes; given enough fuel every pass ends. *)
Theorem growMaze_seeds_every_lattice_point grid r fuel :
  wf grid ->
  (2 * length (g grid) + 1 <= fuel)%nat ->
  exists grid' r' calls,
    growMazeTraced fuel grid r = Done (grid', r', calls) /\
    growMaze fuel grid r = Done (grid', r') /\
    StronglySorted rowMajorLt calls.*1 /\
    forall p,
      p ∈ calls.*1 <->
      inBounds grid p /\ Z.odd (image.X p) = true /\ Z.odd (image.Y p) = true.
Proof.
  intros Hwf Hfuel.
  unfold growMazeTraced, growMaze, NewRegion. rewrite !growMazeLoops_lattice.
  set (grid0 := mkGrid _ _ _ _).
  assert (wf grid0) as Hwf0 by (by destruct Hwf).
  destruct (growMaze_passes fuel (int.add (regCount grid) 1)
              (lattice (Bounds grid)) grid0 r [] Hwf0)
    as (grid' & r' & calls & Ht & Hu & Hcalls & _).
  - apply Forall_forall. intros p Hp.
    apply (elem_of_lattice grid p Hwf) in Hp as [Hp _]. exact Hp.
  - exact Hfuel.
  - exists grid', r', calls. split; [exact Ht|]. split; [exact Hu|].
    simpl in Hcalls. rewrite Hcalls. split; [apply lattice_sorted|].
    intros p. by apply elem_of_lattice.
Qed.

Lemma growMaze_seeds_every_lattice_point_witness :
  let grid := mkGrid (replicate 15 Rock) (Pt 5 3) (replicate 15 0) 0 in
  exists grid' r' calls,
    growMazeTraced 31 grid (mkRand (fun _ => 1) 0) = Done (grid', r', calls) /\
    Pt 3 1 ∈ calls.*1.
Proof.
  intros grid.
  destruct (growMaze_seeds_every_lattice_point grid (mkRand (fun _ => 1) 0) 31)
    as (grid' & r' & calls & Ht & _ & _ & Hin).
  - apply (newGrid_wf (Pt 5 3)); [simpl; lia | simpl; lia | | reflexivity].
    simpl. unfold maxLen. lia.
  - simpl. lia.
  - exists grid', r', calls. split; [exact Ht|]. apply Hin.
    split; [reflexivity | split; reflexivity].
Defined.

(** On a fresh 5x3 grid the first pass, seeded at [(1,1)], carves [(3,1)];
    the second pass is then seeded at [(3,1)] all the same. *)
Lemma growMaze_seeds_carved_point :
  exists grid grid' r',
    newGrid (Pt 5 3) = Some grid /\
    growMazeTraced 31 grid (mkRand (fun _ => 1) 0)
    = Done (grid', r', [(Pt 1 1, Some Rock); (Pt 3 1, Some Carved)]).
Proof.
  eexists _, _, _. split; [reflexivity|]. vm_compute. reflexivity.
Qed.

(** ** Connectors (C7, C10) *)

Lemma forEach_app {A S} (l1 l2 : list A) (body : A -> S -> option S) s :
  forEach (l1 ++ l2) body s
  = match forEach l1 body s with
    | Some s' => forEach l2 body s'
    | None => None
    end.
Proof.
  revert s. induction l1 as [|x l1 IH]; intros s; simpl; [done|].
  destruct (body x s); auto.
Qed.

Lemma forEach_row {S} (xs : list Z) (y : Z) (body : Point -> S -> option S) s :
  forEach (x ← xs; [Pt x y]) body s
  = forEach xs (fun x w => body (Pt x y) w) s.
Proof.
  revert s. induction xs as [|x xs IH]; intros s; [done|].
  rewrite bind_cons. simpl. destruct (body (Pt x y) s); auto.
Qed.

Lemma forEach_nested {S} (ys xs : list Z) (body : Point -> S -> option S) s :
  forEach ys (fun y w => forEach xs (fun x w => body (Pt x y) w) w) s
  = forEach (y ← ys; x ← xs; [Pt x y]) body s.
Proof.
  revert s. induction ys as [|y ys IH]; intros s; [done|].
  rewrite bind_cons, forEach_app, forEach_row. simpl.
  destruct (forEach xs _ s); auto.
Qed.

(** A loop whose body only appends. *)
Lemma forEach_appends {A B} (l : list A) (body : A -> list B -> option (list B))
    (f : A -> list B) s s' :
  (forall x t t', x ∈ l -> body x t = Some t' -> t' = t ++ f x) ->
  forEach l body s = Some s' -> s' = s ++ (x ← l; f x).
Proof.
  revert s. induction l as [|x l IH]; intros s Hbody; simpl.
  - intros [= <-]. by rewrite app_nil_r.
  - destruct (body x s) as [t|] eqn:Hx; [|done]. intros Hrun.
    apply IH in Hrun; [|intros y t1 t2 Hy; apply Hbody; by right].
    apply Hbody in Hx as ->; [|by left].
    subst s'. rewrite <- app_assoc. reflexivity.
Qed.

Lemma forEach_total {A S} (l : list A) (body : A -> S -> option S) s :
  (forall x t, x ∈ l -> exists t', body x t = Some t') ->
  exists s', forEach l body s = Some s'.
Proof.
  revert s. induction l as [|x l IH]; intros s Hbody; simpl; [by exists s|].
  destruct (Hbody x s) as [t ->]; [by left|].
  apply IH. intros y t1 Hy. apply Hbody. by right.
Qed.

Lemma connectorStep_emitted grid here d conns conns' :
  connectorStep grid here d conns = Some conns' ->
  conns' = conns ++ emitted grid here d.
Proof.
  unfold connectorStep, emitted.
  destruct (RegionAt grid (AddDir here d)) as [ra|]; [|done].
  destruct (RegionAt grid (AddDir here (Reverse d))) as [rb|]; [|done].
  destruct (At grid (AddDir here d)) as [[|]|]; [| |done].
  - intros [= <-]. by rewrite app_nil_r.
  - destruct (At grid (AddDir here (Reverse d))) as [[|]|]; [| |done].
    + intros [= <-]. by rewrite app_nil_r.
    + simpl. destruct (ra =? rb); simpl; intros [= <-]; [|done].
      by rewrite app_nil_r.
Qed.

Lemma connectorsAt_records grid here conns conns' :
  connectorsAt grid here conns = Some conns' ->
  conns' = conns ++ cellRecords grid here.
Proof.
  unfold connectorsAt, cellRecords.
  intros (mat & HAt & Hrun)%bind_Some. rewrite HAt. destruct mat.
  - cbn [Material_eqb negb] in Hrun.
    apply (forEach_appends _ _ (emitted grid here)) in Hrun; [done|].
    intros d t t' _. apply connectorStep_emitted.
  - cbn [Material_eqb negb] in Hrun. injection Hrun as <-.
    by rewrite app_nil_r.
Qed.

Lemma findConnectors_scan grid :
  findConnectors grid = forEach (scan (Bounds grid)) (connectorsAt grid) [].
Proof. unfold findConnectors, scan. apply forEach_nested. Qed.

Lemma findConnectors_records grid conns :
  findConnectors grid = Some conns ->
  conns = (here ← scan (Bounds grid); cellRecords grid here).
Proof.
  rewrite findConnectors_scan. intros Hrun.
  apply (forEach_appends _ _ (cellRecords grid)) in Hrun; [done|].
  intros here t t' _. apply connectorsAt_records.
Qed.

Lemma elem_of_scan grid p :
  wf grid ->
  p ∈ scan (Bounds grid) <->
  2 <= image.X p <= image.X (Size grid) - 3 /\
  2 <= image.Y p <= image.Y (Size grid) - 3.
Proof.
  intros Hwf. unfold scan. rewrite elem_of_rows, (Bounds_wf grid Hwf). simpl.
  destruct Hwf as [HX HY _ _ Hlen]. unfold maxLen in Hlen.
  destruct (Z.eq_dec (image.X (Size grid)) 0) as [HX0|HX0].
  { rewrite HX0. unwrap. rewrite !elem_of_forRange, !Z.mod_1_r by lia. lia. }
  destruct (Z.eq_dec (image.Y (Size grid)) 0) as [HY0|HY0].
  { rewrite HY0. unwrap. rewrite !elem_of_forRange, !Z.mod_1_r by lia. lia. }
  assert (image.X (Size grid) < int.half /\ image.Y (Size grid) < int.half)
    as [? ?] by (unfold int.half; nia).
  unwrap. rewrite !elem_of_forRange, !Z.mod_1_r by lia. lia.
Qed.

Lemma scan_sorted bounds : StronglySorted rowMajorLt (scan bounds).
Proof. unfold scan. apply rows_sorted; by apply forRange_sorted. Qed.

Lemma sorted_NoDup (l : list Point) : StronglySorted rowMajorLt l -> NoDup l.
Proof.
  induction 1 as [|p l _ IH Hlt]; constructor; [|exact IH].
  intros Hin. rewrite Forall_forall in Hlt. specialize (Hlt p Hin).
  unfold rowMajorLt in Hlt. lia.
Qed.

(** What a record found at a cell says about the grid. *)
Lemma elem_of_emitted grid here d c :
  c ∈ emitted grid here d ->
  exists ra rb,
    c = mkConnector (mkConn d ra) (mkConn (Reverse d) rb) here /\
    RegionAt grid (AddDir here d) = Some ra /\
    RegionAt grid (AddDir here (Reverse d)) = Some rb /\
    At grid (AddDir here d) = Some Carved /\
    At grid (AddDir here (Reverse d)) = Some Carved /\
    ra <> rb.
Proof.
  unfold emitted.
  destruct (RegionAt grid (AddDir here d)) as [ra|]; [|by inversion 1].
  destruct (RegionAt grid (AddDir here (Reverse d))) as [rb|];
    [|by inversion 1].
  destruct (At grid (AddDir here d)) as [[|]|]; try by inversion 1.
  destruct (At grid (AddDir here (Reverse d))) as [[|]|]; try by inversion 1.
  destruct (Z.eqb_spec ra rb); [by inversion 1|].
  intros ->%list_elem_of_singleton. by exists ra, rb.
Qed.

Lemma elem_of_records grid conns c :
  findConnectors grid = Some conns -> c ∈ conns ->
  exists here d,
    here ∈ scan (Bounds grid) /\ At grid here = Some Rock /\
    d ∈ Dirs /\ c ∈ emitted grid here d.
Proof.
  intros ->%findConnectors_records Hc.
  apply list_elem_of_bind in Hc as (here & Hc & Hhere).
  unfold cellRecords in Hc.
  destruct (At grid here) as [[|]|] eqn:HAt;
    [|by apply elem_of_nil in Hc..].
  apply list_elem_of_bind in Hc as (d & Hc & Hd).
  by exists here, d.
Qed.

Lemma Reverse_Dirs d :
  d ∈ Dirs -> Reverse d ∈ Dirs /\ Reverse (Reverse d) = d.
Proof.
  intros Hd. unfold Dirs.
  apply Dirs_cases in Hd as [-> | [-> | [-> | ->]]];
    (split; [|reflexivity]); rewrite !elem_of_cons.
  - right; right; left; reflexivity.
  - right; right; right; left; reflexivity.
  - left; reflexivity.
  - right; left; reflexivity.
Qed.

Lemma emitted_Reverse grid here d :
  d ∈ Dirs ->
  emitted grid here (Reverse d) = mirror <$> emitted grid here d.
Proof.
  intros Hd. destruct (Reverse_Dirs d Hd) as [_ Hrr].
  unfold emitted. rewrite Hrr.
  destruct (RegionAt grid (AddDir here d)) as [ra|],
           (RegionAt grid (AddDir here (Reverse d))) as [rb|],
           (At grid (AddDir here d)) as [[|]|],
           (At grid (AddDir here (Reverse d))) as [[|]|]; try reflexivity.
  rewrite (Z.eqb_sym rb ra). destruct (ra =? rb); reflexivity.
Qed.

Lemma emitted_length grid here d : (length (emitted grid here d) <= 1)%nat.
Proof.
  unfold emitted.
  destruct (RegionAt grid (AddDir here d)) as [ra|],
           (RegionAt grid (AddDir here (Reverse d))) as [rb|],
           (At grid (AddDir here d)) as [[|]|],
           (At grid (AddDir here (Reverse d))) as [[|]|]; simpl; try lia.
  destruct (ra =? rb); simpl; lia.
Qed.

Lemma cellRecords_loc grid here c : c ∈ cellRecords grid here -> loc c = here.
Proof.
  unfold cellRecords.
  destruct (At grid here) as [[|]|]; [|by intros ?%elem_of_nil..].
  intros (d & Hc & _)%list_elem_of_bind.
  apply elem_of_emitted in Hc as (ra & rb & -> & _). reflexivity.
Qed.

Lemma cellRecords_length grid here :
  length (cellRecords grid here) = 0%nat \/
  length (cellRecords grid here) = 2%nat \/
  length (cellRecords grid here) = 4%nat.
Proof.
  unfold cellRecords. destruct (At grid here) as [[|]|]; try (by left).
  assert (Up ∈ Dirs /\ Right ∈ Dirs) as [HU HR]
    by (unfold Dirs; rewrite !elem_of_cons; tauto).
  change (length (emitted grid here Up ++ emitted grid here Right ++
                  emitted grid here (Reverse Up) ++
                  emitted grid here (Reverse Right) ++ []) = 0%nat \/
          length (emitted grid here Up ++ emitted grid here Right ++
                  emitted grid here (Reverse Up) ++
                  emitted grid here (Reverse Right) ++ []) = 2%nat \/
          length (emitted grid here Up ++ emitted grid here Right ++
                  emitted grid here (Reverse Up) ++
                  emitted grid here (Reverse Right) ++ []) = 4%nat).
  rewrite !length_app, !emitted_Reverse, !length_fmap by done.
  change (length (@nil connector)) with 0%nat.
  pose proof (emitted_length grid here Up).
  pose proof (emitted_length grid here Right). lia.
Qed.

Lemma recordsAt_all p (l : list connector) :
  (forall c, c ∈ l -> loc c = p) -> recordsAt p l = l.
Proof.
  unfold recordsAt. induction l as [|c l IH]; intros Hl; [done|].
  rewrite filter_cons, decide_True by (apply Hl; by left).
  f_equal. apply IH. intros c' Hc'. apply Hl. by right.
Qed.

Lemma recordsAt_none p (l : list connector) :
  (forall c, c ∈ l -> loc c <> p) -> recordsAt p l = [].
Proof.
  unfold recordsAt. induction l as [|c l IH]; intros Hl; [done|].
  rewrite filter_cons, decide_False by (apply Hl; by left).
  apply IH. intros c' Hc'. apply Hl. by right.
Qed.

Lemma recordsAt_app p (l1 l2 : list connector) :
  recordsAt p (l1 ++ l2) = recordsAt p l1 ++ recordsAt p l2.
Proof. unfold recordsAt. apply filter_app. Qed.

Lemma recordsAt_bind (f : Point -> list connector) (l : list Point) p :
  (forall here c, c ∈ f here -> loc c = here) -> NoDup l ->
  recordsAt p (here ← l; f here) = if decide (p ∈ l) then f p else [].
Proof.
  intros Hloc.
  induction 1 as [|x l Hx Hnd IH]; [done|].
  rewrite bind_cons, recordsAt_app, IH.
  destruct (decide (x = p)) as [->|Hne].
  - rewrite (decide_True (P := p ∈ p :: l)) by (by left).
    rewrite (decide_False (P := p ∈ l)) by done. rewrite app_nil_r.
    apply recordsAt_all. intros c Hc. by apply Hloc.
  - rewrite (recordsAt_none p (f x)); [|intros c Hc; by rewrite (Hloc x c Hc)].
    simpl. destruct (decide (p ∈ l)) as [Hin|Hnin].
    + rewrite decide_True by (by right). done.
    + rewrite decide_False; [done|]. intros [->|?]%elem_of_cons; done.
Qed.

(** C7.  On a well-formed grid every record of [findConnectors] sits on a
    Rock cell of the interior [[2, width-3] x [2, height-3]]; its two sides
    are opposite directions of [Dirs]; the cells next to it on either side
    are not Rock; the regions recorded are those of these two cells, and
    they differ. *)
Theorem findConnectors_sound grid conns c :
  wf grid ->
  findConnectors grid = Some conns ->
  c ∈ conns ->
  At grid (loc c) = Some Rock /\
  2 <= image.X (loc c) <= image.X (Size grid) - 3 /\
  2 <= image.Y (loc c) <= image.Y (Size grid) - 3 /\
  dir (a c) ∈ Dirs /\
  dir (b c) = Reverse (dir (a c)) /\
  (exists ma, At grid (AddDir (loc c) (dir (a c))) = Some ma /\ ma <> Rock) /\
  (exists mb, At grid (AddDir (loc c) (Reverse (dir (a c)))) = Some mb
              /\ mb <> Rock) /\
  RegionAt grid (AddDir (loc c) (dir (a c))) = Some (region (a c)) /\
  RegionAt grid (AddDir (loc c) (Reverse (dir (a c)))) = Some (region (b c)) /\
  region (a c) <> region (b c).
Proof.
  intros Hwf Hrun Hc.
  destruct (elem_of_records grid conns c Hrun Hc)
    as (here & d & Hhere & Hrock & Hd & Hem).
  apply elem_of_emitted in Hem
      as (ra & rb & -> & Hra & Hrb & Hma & Hmb & Hne).
  apply (elem_of_scan grid here Hwf) in Hhere as [HX HY]. simpl.
  split; [done|]. split; [done|]. split; [done|]. split; [done|].
  split; [done|]. split; [by exists Carved|]. split; [by exists Carved|].
  done.
Qed.

(** C10.  The list of [findConnectors] holds every record together with
    the same connector read from the other side, and the records of one
    cell number 0, 2 or 4. *)
Theorem findConnectors_mirror_closed grid conns :
  findConnectors grid = Some conns ->
  (forall here d ra rb,
     mkConnector (mkConn d ra) (mkConn (Reverse d) rb) here ∈ conns ->
     mkConnector (mkConn (Reverse d) rb) (mkConn d ra) here ∈ conns) /\
  (forall c, c ∈ conns -> mirror c ∈ conns) /\
  (forall p,
     length (recordsAt p conns) = 0%nat \/
     length (recordsAt p conns) = 2%nat \/
     length (recordsAt p conns) = 4%nat).
Proof.
  intros Hrun.
  assert (forall c, c ∈ conns -> mirror c ∈ conns) as Hmirror.
  { intros c Hc.
    destruct (elem_of_records grid conns c Hrun Hc)
      as (here & d & Hhere & Hrock & Hd & Hem).
    rewrite (findConnectors_records grid conns Hrun).
    apply list_elem_of_bind. exists here. split; [|done].
    unfold cellRecords. rewrite Hrock.
    apply list_elem_of_bind. exists (Reverse d).
    split; [|by apply Reverse_Dirs].
    rewrite emitted_Reverse by done. by apply list_elem_of_fmap_2. }
  split; [|split; [exact Hmirror|]].
  - intros here d ra rb Hc. by apply Hmirror in Hc.
  - intros p. rewrite (findConnectors_records grid conns Hrun).
    rewrite recordsAt_bind.
    + destruct (decide (p ∈ scan (Bounds grid))); [|by left].
      apply cellRecords_length.
    + apply cellRecords_loc.
    + apply sorted_NoDup, scan_sorted.
Qed.

Lemma findConnectors_sound_witness :
  let grid := mkGrid [Rock; Rock; Rock; Rock; Rock;
                      Rock; Rock; Rock; Rock; Rock;
                      Rock; Carved; Rock; Carved; Rock;
                      Rock; Rock; Rock; Rock; Rock;
                      Rock; Rock; Rock; Rock; Rock]
                     (Pt 5 5)
                     [0; 0; 0; 0; 0;  0; 0; 0; 0; 0;  0; 1; 0; 2; 0;
                      0; 0; 0; 0; 0;  0; 0; 0; 0; 0] 2 in
  let c := mkConnector (mkConn Right 2) (mkConn Left 1) (Pt 2 2) in
  findConnectors grid = Some [c; mirror c] /\
  At grid (Pt 2 2) = Some Rock /\
  RegionAt grid (Pt 3 2) = Some 2 /\ RegionAt grid (Pt 1 2) = Some 1.
Proof.
  intros grid c.
  assert (findConnectors grid = Some [c; mirror c]) as Hrun
    by (vm_compute; reflexivity).
  split; [exact Hrun|].
  destruct (findConnectors_sound grid [c; mirror c] c)
    as (Hrock & _ & _ & _ & _ & _ & _ & Hra & Hrb & _).
  - split; simpl; unfold maxLen; lia.
  - exact Hrun.
  - by left.
  - split; [exact Hrock|]. split; [exact Hra | exact Hrb].
Defined.

Lemma findConnectors_mirror_closed_witness :
  let grid := mkGrid [Rock; Rock; Rock; Rock; Rock;
                      Rock; Rock; Rock; Rock; Rock;
                      Rock; Carved; Rock; Carved; Rock;
                      Rock; Rock; Rock; Rock; Rock;
                      Rock; Rock; Rock; Rock; Rock]
                     (Pt 5 5)
                     [0; 0; 0; 0; 0;  0; 0; 0; 0; 0;  0; 1; 0; 2; 0;
                      0; 0; 0; 0; 0;  0; 0; 0; 0; 0] 2 in
  let c := mkConnector (mkConn Right 2) (mkConn Left 1) (Pt 2 2) in
  findConnectors grid = Some [c; mirror c] /\ mirror c ∈ [c; mirror c].
Proof.
  intros grid c.
  assert (findConnectors grid = Some [c; mirror c]) as Hrun
    by (vm_compute; reflexivity).
  split; [exact Hrun|].
  destruct (findConnectors_mirror_closed grid [c; mirror c] Hrun)
    as (_ & Hmirror & _).
  apply Hmirror. by left.
Defined.

(** ** Further properties of the grid *)

Lemma wrap_add_l a b : int.wrap (int.wrap a + b) = int.wrap (a + b).
Proof.
  unfold int.wrap.
  replace ((a + int.half) mod int.modulus - int.half + b + int.half)
    with ((a + int.half) mod int.modulus + b) by lia.
  rewrite Zplus_mod_idemp_l. f_equal. f_equal. lia.
Qed.

Lemma index_insert {A} (s : list A) i j v :
  0 <= i < Z.of_nat (length s) -> 0 <= j ->
  index (<[Z.to_nat i := v]> s) j = if decide (i = j) then Some v else index s j.
Proof.
  intros Hi Hj. unfold index. rewrite length_insert.
  destruct (decide (i = j)) as [<-|Hne].
  - destruct (Z.leb_spec 0 i), (Z.ltb_spec i (Z.of_nat (length s))); try lia.
    simpl. apply list_lookup_insert_eq. lia.
  - destruct ((0 <=? j) && (j <? Z.of_nat (length s))); [|done].
    apply list_lookup_insert_ne. lia.
Qed.

(** A fresh grid: well formed, every cell Rock with region 0, no region
    handed out yet. *)
Theorem newGrid_fresh size :
  0 <= image.X size -> 0 <= image.Y size ->
  image.X size * image.Y size < maxLen ->
  exists grid,
    newGrid size = Some grid /\ wf grid /\ Size grid = size /\
    regCount grid = 0 /\ Regions grid = [] /\
    forall p, inBounds grid p ->
              At grid p = Some Rock /\ RegionAt grid p = Some 0.
Proof.
  intros HX HY Hlen.
  assert (0 <= image.X size * image.Y size) as Hpos by nia.
  destruct (newGrid size) as [grid|] eqn:Hnew.
  - pose proof (newGrid_wf size grid HX HY Hlen Hnew) as Hwf.
    exists grid. split; [done|]. split; [done|].
    unfold newGrid, maxLen in *. unwrap.
    destruct (Z.ltb_spec (image.X size * image.Y size) 0); [lia|].
    injection Hnew as <-. simpl. split; [done|]. split; [done|].
    split; [done|]. intros p Hp.
    destruct (offset_inBounds _ p Hwf Hp) as [_ Hoff]. simpl in Hoff.
    unfold At, RegionAt. simpl. split.
    + apply index_Some. split; [lia|]. apply lookup_replicate_2. lia.
    + apply index_Some. split; [lia|]. apply lookup_replicate_2. lia.
  - unfold newGrid, maxLen in *. unwrap.
    destruct (Z.ltb_spec (image.X size * image.Y size) 0); [lia | done].
Qed.

Lemma newGrid_fresh_witness :
  exists grid, newGrid (Pt 3 2) = Some grid /\ At grid (Pt 2 1) = Some Rock.
Proof.
  destruct (newGrid_fresh (Pt 3 2)) as (grid & Hnew & Hwf & _ & _ & _ & Hall).
  - simpl. lia.
  - simpl. lia.
  - simpl. unfold maxLen. lia.
  - exists grid. split; [exact Hnew|]. apply Hall.
    apply inBounds_iff; [exact Hwf|].
    unfold newGrid in Hnew. simpl in Hnew. injection Hnew as <-. simpl. lia.
Defined.

Lemma At_after_store grid grid' p q m :
  wf grid -> inBounds grid p -> inBounds grid q ->
  g grid' = <[Z.to_nat (offset grid p) := m]> (g grid) ->
  Size grid' = Size grid ->
  At grid' q = if decide (p = q) then Some m else At grid q.
Proof.
  intros Hwf Hp Hq Hg HS.
  destruct (offset_inBounds grid p Hwf Hp) as [_ Hop].
  destruct (offset_inBounds grid q Hwf Hq) as [_ Hoq].
  unfold At. replace (offset grid' q) with (offset grid q)
    by (unfold offset; by rewrite HS).
  rewrite Hg, index_insert by (destruct Hwf; lia).
  destruct (decide (p = q)) as [->|Hne]; [by rewrite decide_True|].
  rewrite decide_False; [done|]. intros Heq. apply Hne.
  by apply (offset_inj grid).
Qed.

(** Writing a material and reading it back: inside the bounds of a
    well-formed grid [SetMaterial] succeeds, the cell then holds the
    material written, every other cell and every region is as before. *)
Theorem SetMaterial_At grid p m :
  wf grid -> inBounds grid p ->
  exists grid',
    SetMaterial grid p m = Some grid' /\ wf grid' /\
    Size grid' = Size grid /\ regCount grid' = regCount grid /\
    At grid' p = Some m /\
    (forall q, inBounds grid q -> q <> p -> At grid' q = At grid q) /\
    (forall q, RegionAt grid' q = RegionAt grid q).
Proof.
  intros Hwf Hp.
  destruct (SetMaterial_inBounds grid p m Hwf Hp)
    as (grid' & Hset & Hwf' & Hg & HS & HC).
  exists grid'. split; [done|]. split; [done|]. split; [done|].
  split; [done|]. split; [|split].
  - rewrite (At_after_store grid grid' p p m) by done. by rewrite decide_True.
  - intros q Hq Hne.
    rewrite (At_after_store grid grid' p q m) by done.
    by rewrite decide_False.
  - intros q. unfold SetMaterial in Hset.
    destruct (store _ _ _); [|done]. injection Hset as <-.
    unfold RegionAt, offset. done.
Qed.

Lemma SetMaterial_At_witness :
  let grid := mkGrid (replicate 6 Rock) (Pt 3 2) (replicate 6 0) 0 in
  exists grid',
    SetMaterial grid (Pt 2 1) Carved = Some grid' /\
    At grid' (Pt 2 1) = Some Carved /\ At grid' (Pt 1 1) = Some Rock.
Proof.
  intros grid.
  assert (wf grid) as Hwf by (split; simpl; unfold maxLen; lia).
  destruct (SetMaterial_At grid (Pt 2 1) Carved Hwf)
    as (grid' & Hset & _ & _ & _ & Hp & Hq & _); [reflexivity|].
  exists grid'. split; [exact Hset|]. split; [exact Hp|].
  rewrite (Hq (Pt 1 1)); [reflexivity | reflexivity | discriminate].
Defined.

(** The same for regions. *)
Theorem SetRegion_RegionAt grid p reg :
  wf grid -> inBounds grid p ->
  exists grid',
    SetRegion grid p reg = Some grid' /\ wf grid' /\
    Size grid' = Size grid /\ regCount grid' = regCount grid /\
    RegionAt grid' p = Some reg /\
    (forall q, inBounds grid q -> q <> p -> RegionAt grid' q = RegionAt grid q) /\
    (forall q, At grid' q = At grid q).
Proof.
  intros Hwf Hp.
  destruct (offset_inBounds grid p Hwf Hp) as [_ Hop].
  destruct (SetRegion_inBounds grid p reg Hwf Hp)
    as (grid' & Hset & Hwf' & Hg & HS & HC).
  exists grid'. split; [done|]. split; [done|]. split; [done|].
  split; [done|].
  assert (regions grid' = <[Z.to_nat (offset grid p) := reg]> (regions grid))
    as Hregs.
  { unfold SetRegion in Hset.
    destruct (store _ _ _) as [regs|] eqn:Hst; [|done].
    apply store_Some in Hst as [_ ->]. by injection Hset as <-. }
  assert (forall q, offset grid' q = offset grid q) as Hoff
    by (intros q; unfold offset; by rewrite HS).
  split; [|split].
  - unfold RegionAt. rewrite Hoff, Hregs, index_insert by (destruct Hwf; lia).
    by rewrite decide_True.
  - intros q Hq Hne.
    destruct (offset_inBounds grid q Hwf Hq) as [_ Hoq].
    unfold RegionAt. rewrite Hoff, Hregs, index_insert by (destruct Hwf; lia).
    rewrite decide_False; [done|]. intros Heq. apply Hne. symmetry.
    by apply (offset_inj grid).
  - intros q. unfold At. by rewrite Hoff, Hg.
Qed.

Lemma SetRegion_RegionAt_witness :
  let grid := mkGrid (replicate 6 Rock) (Pt 3 2) (replicate 6 0) 0 in
  exists grid',
    SetRegion grid (Pt 2 1) 7 = Some grid' /\
    RegionAt grid' (Pt 2 1) = Some 7 /\ RegionAt grid' (Pt 1 1) = Some 0.
Proof.
  intros grid.
  assert (wf grid) as Hwf by (split; simpl; unfold maxLen; lia).
  destruct (SetRegion_RegionAt grid (Pt 2 1) 7 Hwf)
    as (grid' & Hset & _ & _ & _ & Hp & Hq & _); [reflexivity|].
  exists grid'. split; [exact Hset|]. split; [exact Hp|].
  rewrite (Hq (Pt 1 1)); [reflexivity | reflexivity | discriminate].
Defined.

(** Successive calls of [NewRegion] hand out consecutive ids above the
    counter, each one once, and leave the cells alone. *)
Theorem NewRegion_fresh_ids n grid ids grid' :
  0 <= regCount grid -> regCount grid + Z.of_nat n < int.half ->
  newRegions n grid = (ids, grid') ->
  ids = (fun k => regCount grid + 1 + Z.of_nat k) <$> seq 0 n /\
  NoDup ids /\
  (forall id, id ∈ ids -> regCount grid < id <= regCount grid') /\
  regCount grid' = regCount grid + Z.of_nat n /\
  g grid' = g grid /\ regions grid' = regions grid /\ Size grid' = Size grid.
Proof.
  intros H0 Hn Hcalls.
  destruct (newRegions_spec n grid ids grid' H0 Hn Hcalls) as [Hids Hcount].
  split; [done|]. split; [|split; [|split; [done|]]].
  - rewrite Hids. apply NoDup_fmap_2; [|apply NoDup_seq].
    intros x y Hxy. lia.
  - intros id. rewrite Hids, Hcount.
    intros (k & -> & Hk)%list_elem_of_fmap. apply elem_of_seq in Hk. lia.
  - clear -Hcalls. revert grid ids grid' Hcalls.
    induction n as [|n IH]; intros grid ids grid'; simpl.
    + by intros [= <- <-].
    + destruct (newRegions n _) as [ids1 grid1] eqn:Hrec.
      intros [= <- <-]. apply IH in Hrec. simpl in Hrec. done.
Qed.

Lemma NewRegion_fresh_ids_witness :
  let grid := mkGrid (replicate 6 Rock) (Pt 3 2) (replicate 6 0) 4 in
  exists grid', newRegions 3 grid = ([5; 6; 7], grid') /\ regCount grid' = 7.
Proof.
  intros grid. eexists. split; [reflexivity|].
  eapply (NewRegion_fresh_ids 3 grid); [| |reflexivity].
  - simpl. lia.
  - simpl. unfold int.half. lia.
Defined.

(** Directions come in opposite pairs: reversing stays within [Dirs],
    reversing twice gives the direction back, and a step followed by the
    reverse step returns to the starting point. *)
Theorem AddDir_Reverse p d :
  d ∈ Dirs -> isInt (image.X p) -> isInt (image.Y p) ->
  Reverse d ∈ Dirs /\ Reverse (Reverse d) = d /\
  AddDir (AddDir p d) (Reverse d) = p.
Proof.
  intros Hd HX HY. destruct (Reverse_Dirs d Hd) as [Hr Hrr].
  split; [done|]. split; [done|].
  destruct p as [x y]. unfold isInt, int.half in *. simpl in *.
  apply Dirs_cases in Hd as [-> | [-> | [-> | ->]]];
    unfold AddDir, Reverse, Add, Mul, image.Point_Add, image.Point_Mul,
      int.add, int.mul; simpl;
    rewrite !wrap_add_l; unwrap; f_equal; lia.
Qed.

Lemma AddDir_Reverse_witness :
  AddDir (AddDir (Pt 4 7) Up) (Reverse Up) = Pt 4 7.
Proof.
  apply (AddDir_Reverse (Pt 4 7) Up).
  - unfold Dirs. rewrite !elem_of_cons. tauto.
  - unfold isInt, int.half. simpl. lia.
  - unfold isInt, int.half. simpl. lia.
Defined.
